(** * 3D-parallel forward step (parallelisms/train_3d.c)

    A shallow embedding of the orchestration code of [train_3d.c]: the
    per-rank forward protocol [Model_forward_3d], the sharding driver
    [Model_shard_3d] and the training-step driver [main].

    The program of one rank is a tree of external calls (message passing,
    compute kernels, runtime and model-construction routines).  Every call
    is recorded together with the memory of the rank at the moment the call
    is issued, so that statements such as "the weight pointer is restored
    before the next communication" can be read off the trace.  A world of
    ranks is run by a step relation that matches collectives and
    point-to-point messages.

    C [int] values are integers of [Z]: signed overflow, which C leaves
    undefined, is not modelled; [/] and [%] are [Z.quot] and [Z.rem].
    [float] values are kept abstract. *)

From Stdlib Require Import ZArith String Ascii List Lia QArith.
From stdpp Require Import base option list numbers strings gmap relations.
From stdpp Require Import pretty.

Local Open Scope string_scope.
Local Open Scope list_scope.
Local Open Scope Z_scope.

(** ** Memory of one rank *)

(** A pointer to a [float] buffer is the identifier of the buffer; the file
    never does pointer arithmetic on parameter or activation buffers. *)
Definition addr := N.

(** Modelled from the spec: [Embedding], [Linear], [Activation] and [Model]
    are declared in [model.c], which is not among the sources.  The fields
    [embedding], [vocab_size], [weight], [in_features], [value] and the
    members of [Model] are the ones [train_3d.c] reads or writes; the other
    shape fields follow the data model of the specification (a contiguous
    buffer plus its effective shape). *)
Record Embedding := mkEmbedding {
  embedding : addr;
  vocab_size : Z;
  emb_size : Z
}.

Record Linear := mkLinear {
  weight : addr;
  bias : addr;
  in_features : Z;
  out_features : Z
}.

Record Activation := mkActivation {
  value : addr;
  act_batch_size : Z;
  act_features : Z
}.

Record Model := mkModel {
  wte : Embedding;
  fc_1 : Linear;
  fc_2 : Linear;
  wte_out : Activation;
  wte_out_flat : Activation;
  fc_1_out : Activation;
  relu_out : Activation;
  fc_2_out : Activation;
  softmax_out : Activation
}.

(** Communicator handles.  A tensor-parallel group is the set of ranks that
    share a (dp, pp) coordinate, a data-parallel group shares (tp, pp) and a
    pipeline group shares (tp, dp); the handle names the shared pair. *)
Inductive Comm :=
| TPComm (dp pp : Z)
| DPComm (tp pp : Z)
| PPComm (tp dp : Z).

#[global] Instance Comm_eq_dec : EqDecision Comm.
Proof. solve_decision. Defined.

(** Modelled from the spec: the [Dist] record is declared in
    [distributed.c], which is not among the sources; it is the topology
    record of the specification, with the fields [train_3d.c] reads. *)
Record Dist := mkDist {
  world_rank : Z;
  tp_rank : Z; tp_size : Z;
  dp_rank : Z; dp_size : Z;
  pp_rank : Z; pp_size : Z;
  tp_comm : Comm; dp_comm : Comm; pp_comm : Comm
}.

Definition Dataset := N.

(** Undefined behaviours the driver can run into. *)
Inductive UB :=
| UninitializedRead (var : string)
| ReadPastArgv (index : nat)
| DivisionByZero.

(** The float buffers of a rank, by address. *)
Abbreviation Heap float := (gmap addr (list float)).

Section Program.

Context {float : Type}.

Record State := mkState {
  st_model : Model;
  st_heap : Heap float
}.

(** Reading [count] floats at [p], and writing [data] at the start of the
    buffer at [p] (the rest of the buffer keeps its contents). *)
Definition load (h : Heap float) (p : addr) (count : Z) : list float :=
  take (Z.to_nat count) (default [] (h !! p)).

Definition store (h : Heap float) (p : addr) (data : list float)
    : Heap float :=
  <[p := data ++ drop (length data) (default [] (h !! p))]> h.

(** ** External calls *)

(** The compute kernels of [model.c], as calls: what is called and with
    which arguments. *)
Inductive KCall :=
| KEmbedding_forward (self : Embedding) (Xs : list Z) (out : Activation)
| KLinear_forward (self : Linear) (inp out : Activation)
| Krelu (inp out : Activation)
| Ksoftmax (inp out : Activation)
| Kcross_entropy_loss (probs : Activation) (Ys : list Z).

Inductive PrintArg :=
| PInt (n : Z)
| PFloat (x : float).

Inductive Ext :=
(* message passing *)
| EAllgather (shard : list float) (comm : Comm)
| ESend (data : list float) (count : Z) (to_rank : Z) (comm : Comm)
| ERecv (count : Z) (from_rank : Z) (comm : Comm)
| EAllreduce_mean (data : list float) (comm : Comm) (size : Z)
| EBcast (buf : option float) (root : Z) (comm : Comm)
(* runtime *)
| Esrand (seed : Z)
| EMPI_Init
| EMPI_Finalize
| EDist_create (tp dp pp : Z)
| Eprintf (fmt : string) (args : list PrintArg)
| Erank0_printf (rank : Z) (fmt : string) (args : list PrintArg)
| Emalloc (bytes : Z)
(* compute kernels *)
| EKernel (call : KCall)
(* model construction and sharding *)
| EModel_create (batch_size seq_len vocab_size emb_size hidden_size : Z)
| EModel_pad_vocab (vocab_size_padded : Z)
| EModel_shard_tp (rank size : Z)
| EModel_shard_fsdp (rank size : Z)
| EModel_shard_pp (rank : Z)
(* data set *)
| EDataset_create_from_file (path : string) (seq_len : Z)
| EDataset_train_test_split (dataset : Dataset) (train_percent : Q)
| EDataset_get_rank_batch (split : Dataset) (global_batch_size rank size : Z).

(** What each call hands back to the caller. *)
Definition Reply (e : Ext) : Type :=
  match e with
  | EAllgather _ _ => list float
  | ESend _ _ _ _ => unit
  | ERecv _ _ _ => list float
  | EAllreduce_mean _ _ _ => list float
  | EBcast _ _ _ => float
  | Esrand _ | EMPI_Init | EMPI_Finalize => unit
  | EDist_create _ _ _ => Dist
  | Eprintf _ _ | Erank0_printf _ _ _ => unit
  | Emalloc _ => addr
  | EKernel _ => unit
  | EModel_create _ _ _ _ _ => State
  | EModel_pad_vocab _ => State
  | EModel_shard_tp _ _ | EModel_shard_fsdp _ _ | EModel_shard_pp _ => State
  | EDataset_create_from_file _ _ => Dataset
  | EDataset_train_test_split _ _ => (Dataset * Dataset)%type
  | EDataset_get_rank_batch _ _ _ _ => (list Z * list Z)%type
  end.

(** ** Programs: trees of external calls *)

Inductive Prog (A : Type) : Type :=
| Ret (a : A)
| Exit (code : Z)
| Undef (why : UB)
| Vis (st : State) (e : Ext) (k : Reply e -> Prog A).

Arguments Ret {A} a.
Arguments Exit {A} code.
Arguments Undef {A} why.
Arguments Vis {A} st e k.

Fixpoint bind_prog {A B} (p : Prog A) (f : A -> Prog B) : Prog B :=
  match p with
  | Ret a => f a
  | Exit c => Exit c
  | Undef w => Undef w
  | Vis st e k => Vis st e (fun x => bind_prog (k x) f)
  end.

(** Code that reads and writes the memory of the rank. *)
Definition M (A : Type) : Type := State -> Prog (A * State).

Definition ret {A} (a : A) : M A := fun st => Ret (a, st).

Definition bind {A B} (m : M A) (f : A -> M B) : M B :=
  fun st => bind_prog (m st) (fun '(a, st') => f a st').

Definition gets {A} (f : State -> A) : M A := fun st => Ret (f st, st).
Definition modify (f : State -> State) : M unit := fun st => Ret (tt, f st).
Definition put (st' : State) : M unit := fun _ => Ret (tt, st').
Definition call (e : Ext) : M (Reply e) :=
  fun st => Vis st e (fun x => Ret (x, st)).
Definition exit {A} (code : Z) : M A := fun _ => Exit code.
Definition undefined {A} (why : UB) : M A := fun _ => Undef why.

End Program.

Arguments State : clear implicits.
Arguments KCall : clear implicits.
Arguments PrintArg : clear implicits.
Arguments Ext : clear implicits.
Arguments Prog : clear implicits.
Arguments M : clear implicits.
Arguments Ret {float A} a.
Arguments Exit {float A} code.
Arguments Undef {float A} why.
Arguments Vis {float A} st e k.

#[global] Instance M_ret {float} : MRet (M float) := @ret float.
#[global] Instance M_bind {float} : MBind (M float) :=
  fun A B f m => bind m f.

(** ** Compute kernels and shape functions of [model.c]

    [model.c] is not among the sources: its kernels and element counts are
    parameters.  As in the specification, the numeric kernels are opaque,
    deterministic functions of the layer they are given and of the memory
    they read; the element counts are functions of the shape currently set
    on the layer or activation. *)
Class Kernels (float : Type) := {
  Embedding_numel : Embedding -> Z;
  Linear_weight_numel : Linear -> Z;
  Activation_numel : Activation -> Z;
  eval_Embedding_forward :
    Embedding -> Heap float -> list Z -> Activation -> list float;
  eval_Linear_forward :
    Linear -> Heap float -> Activation -> Activation -> list float;
  eval_relu : Heap float -> Activation -> Activation -> list float;
  eval_softmax : Heap float -> Activation -> Activation -> list float;
  eval_cross_entropy_loss : Heap float -> Activation -> list Z -> float;
  (* arithmetic mean of [size] contributions *)
  eval_mean : list float -> Z -> float
}.

Section Forward.

Context {float : Type} `{Kernels float}.

Local Abbreviation State := (State float).
Local Abbreviation M := (M float).

(** *** Field access on [self] *)

Definition set_heap (h : Heap float) (st : State) : State :=
  mkState (st_model st) h.

Definition set_model (m : Model) (st : State) : State :=
  mkState m (st_heap st).

Definition set_wte_embedding (p : addr) (m : Model) : Model :=
  mkModel (mkEmbedding p (vocab_size (wte m)) (emb_size (wte m)))
    (fc_1 m) (fc_2 m) (wte_out m) (wte_out_flat m) (fc_1_out m)
    (relu_out m) (fc_2_out m) (softmax_out m).

Definition set_wte_vocab_size (n : Z) (m : Model) : Model :=
  mkModel (mkEmbedding (embedding (wte m)) n (emb_size (wte m)))
    (fc_1 m) (fc_2 m) (wte_out m) (wte_out_flat m) (fc_1_out m)
    (relu_out m) (fc_2_out m) (softmax_out m).

Definition set_weight (p : addr) (l : Linear) : Linear :=
  mkLinear p (bias l) (in_features l) (out_features l).

Definition set_in_features (n : Z) (l : Linear) : Linear :=
  mkLinear (weight l) (bias l) n (out_features l).

Definition upd_fc_1 (f : Linear -> Linear) (m : Model) : Model :=
  mkModel (wte m) (f (fc_1 m)) (fc_2 m) (wte_out m) (wte_out_flat m)
    (fc_1_out m) (relu_out m) (fc_2_out m) (softmax_out m).

Definition upd_fc_2 (f : Linear -> Linear) (m : Model) : Model :=
  mkModel (wte m) (fc_1 m) (f (fc_2 m)) (wte_out m) (wte_out_flat m)
    (fc_1_out m) (relu_out m) (fc_2_out m) (softmax_out m).

Definition self_ {A} (f : Model -> A) : M A := gets (fun st => f (st_model st)).

Definition assign (f : Model -> Model) : M unit :=
  modify (fun st => set_model (f (st_model st)) st).

Definition write_buf (p : addr) (data : list float) : M unit :=
  modify (fun st => set_heap (store (st_heap st) p data) st).

Definition read_buf (p : addr) (count : Z) : M (list float) :=
  gets (fun st => load (st_heap st) p count).

(** *** Kernels as calls

    A kernel call is recorded (with the memory it sees) and then its
    output is written to the output activation. *)

Definition Embedding_forward (self : Embedding) (Xs : list Z)
    (out : Activation) : M unit :=
  call (EKernel (KEmbedding_forward self Xs out));;
  h ← gets st_heap;
  write_buf (value out) (eval_Embedding_forward self h Xs out).

Definition Linear_forward (self : Linear) (inp out : Activation) : M unit :=
  call (EKernel (KLinear_forward self inp out));;
  h ← gets st_heap;
  write_buf (value out) (eval_Linear_forward self h inp out).

Definition relu (inp out : Activation) : M unit :=
  call (EKernel (Krelu inp out));;
  h ← gets st_heap;
  write_buf (value out) (eval_relu h inp out).

Definition softmax (inp out : Activation) : M unit :=
  call (EKernel (Ksoftmax inp out));;
  h ← gets st_heap;
  write_buf (value out) (eval_softmax h inp out).

Definition cross_entropy_loss (probs : Activation) (Ys : list Z) : M float :=
  call (EKernel (Kcross_entropy_loss probs Ys));;
  h ← gets st_heap;
  mret (eval_cross_entropy_loss h probs Ys).

(** *** Communication wrappers of [distributed.c] *)

(** Modelled from the spec: [allgather] of [distributed.c] is not in the
    sources.  Every member of the group contributes [shard_size] floats and
    the output buffer ends up holding what the collective delivers (the
    concatenation by ascending in-group rank, see [fire]). *)
Definition allgather (shard : addr) (shard_size : Z) (out : addr)
    (comm : Comm) : M unit :=
  data ← read_buf shard shard_size;
  gathered ← call (EAllgather data comm);
  write_buf out gathered.

(** Modelled from the spec: [send] of [distributed.c]; blocking
    point-to-point send of [count] floats to [to_rank] of [comm]. *)
Definition send (buf : addr) (count : Z) (to_rank : Z) (comm : Comm)
    : M unit :=
  data ← read_buf buf count;
  call (ESend data count to_rank comm).

(** Modelled from the spec: [recv] of [distributed.c]; blocking receive of
    [count] floats from [from_rank] of [comm] into [buf]. *)
Definition recv (buf : addr) (count : Z) (from_rank : Z) (comm : Comm)
    : M unit :=
  data ← call (ERecv count from_rank comm);
  write_buf buf data.

(** Modelled from the spec: [allreduce_mean] of [distributed.c]; the buffer
    is replaced, element-wise, by the mean across the group. *)
Definition allreduce_mean (buf : addr) (count : Z) (comm : Comm) (size : Z)
    : M unit :=
  data ← read_buf buf count;
  reduced ← call (EAllreduce_mean data comm size);
  write_buf buf reduced.

(** [allreduce_mean(&loss, 1, ...)] on a local variable. *)
Definition allreduce_mean_var (x : float) (comm : Comm) (size : Z)
    : M float :=
  reduced ← call (EAllreduce_mean [x] comm size);
  mret (default x (head reduced)).

(** [MPI_Bcast(&loss, 1, MPI_FLOAT, root, comm)] on a local variable that
    may still be uninitialised; afterwards it holds the root's value. *)
Definition MPI_Bcast (buf : option float) (root : Z) (comm : Comm)
    : M (option float) :=
  v ← call (EBcast buf root comm);
  mret (Some v).

(** Reading a local [float] variable. *)
Definition read_float (var : string) (x : option float) : M float :=
  match x with
  | Some v => mret v
  | None => undefined (UninitializedRead var)
  end.

(** ** [Model_shard_3d]

    The three sharding steps of [model.c] are external calls; each hands
    back the memory of the rank as it leaves it. *)

Definition Model_shard_tp (rank size : Z) : M unit :=
  st ← call (EModel_shard_tp rank size); put st.

Definition Model_shard_fsdp (rank size : Z) : M unit :=
  st ← call (EModel_shard_fsdp rank size); put st.

Definition Model_shard_pp (rank : Z) : M unit :=
  st ← call (EModel_shard_pp rank); put st.

Definition Model_shard_3d (dist : Dist) : M unit :=
  Model_shard_tp (tp_rank dist) (tp_size dist);;
  Model_shard_fsdp (dp_rank dist) (dp_size dist);;
  Model_shard_pp (pp_rank dist).

(** ** [Model_forward_3d] *)

Definition Model_forward_3d (Xs Ys : list Z) (flat_buffer : addr)
    (dist : Dist) : M float :=
  let loss : option float := None in
  loss ←
    (if decide (pp_rank dist = 0) then
       (* wte forward. *)
       wte_shard_size ← self_ (fun self => Embedding_numel (wte self));
       shard ← self_ (fun self => embedding (wte self));
       allgather shard wte_shard_size flat_buffer (dp_comm dist);;
       wte_shard ← self_ (fun self => embedding (wte self));
       wte_shard_vocab_size ← self_ (fun self => vocab_size (wte self));
       assign (set_wte_embedding flat_buffer);;
       assign (set_wte_vocab_size (wte_shard_vocab_size * dp_size dist));;
       (self ← self_ id; Embedding_forward (wte self) Xs (wte_out self));;
       assign (set_wte_embedding wte_shard);;
       assign (set_wte_vocab_size wte_shard_vocab_size);;
       (self ← self_ id;
        send (value (wte_out self)) (Activation_numel (wte_out self))
          (* to_rank *) 1 (pp_comm dist));;
       mret loss
     else if decide (pp_rank dist = 1) then
       (self ← self_ id;
        recv (value (wte_out_flat self))
          (Activation_numel (wte_out_flat self))
          (* from_rank *) 0 (pp_comm dist));;
       (* fc_1 forward. *)
       fc_1_shard_size ← self_ (fun self => Linear_weight_numel (fc_1 self));
       shard ← self_ (fun self => weight (fc_1 self));
       allgather shard fc_1_shard_size flat_buffer (dp_comm dist);;
       fc_1_shard ← self_ (fun self => weight (fc_1 self));
       fc_1_shard_in_features ← self_ (fun self => in_features (fc_1 self));
       assign (upd_fc_1 (set_weight flat_buffer));;
       assign (upd_fc_1
                 (set_in_features (fc_1_shard_in_features * dp_size dist)));;
       (self ← self_ id;
        Linear_forward (fc_1 self) (wte_out_flat self) (fc_1_out self));;
       assign (upd_fc_1 (set_weight fc_1_shard));;
       assign (upd_fc_1 (set_in_features fc_1_shard_in_features));;
       (self ← self_ id; relu (fc_1_out self) (relu_out self));;
       (self ← self_ id;
        send (value (relu_out self)) (Activation_numel (relu_out self))
          (* to_rank *) 2 (pp_comm dist));;
       mret loss
     else if decide (pp_rank dist = 2) then
       (self ← self_ id;
        recv (value (relu_out self)) (Activation_numel (relu_out self))
          (* from_rank *) 1 (pp_comm dist));;
       (* fc_2 forward. *)
       fc_2_shard_size ← self_ (fun self => Linear_weight_numel (fc_2 self));
       shard ← self_ (fun self => weight (fc_2 self));
       allgather shard fc_2_shard_size flat_buffer (dp_comm dist);;
       fc_2_shard ← self_ (fun self => weight (fc_2 self));
       fc_2_shard_in_features ← self_ (fun self => in_features (fc_2 self));
       assign (upd_fc_2 (set_weight flat_buffer));;
       assign (upd_fc_2
                 (set_in_features (fc_2_shard_in_features * dp_size dist)));;
       (self ← self_ id;
        Linear_forward (fc_2 self) (relu_out self) (fc_2_out self));;
       assign (upd_fc_2 (set_weight fc_2_shard));;
       assign (upd_fc_2 (set_in_features fc_2_shard_in_features));;
       (self ← self_ id;
        allreduce_mean (value (fc_2_out self))
          (Activation_numel (fc_2_out self)) (tp_comm dist) (tp_size dist));;
       (self ← self_ id; softmax (fc_2_out self) (softmax_out self));;
       l ← (self ← self_ id; cross_entropy_loss (softmax_out self) Ys);
       mret (Some l)
     else
       call (Eprintf "Unknown pp_rank: %d\n" [PInt (pp_rank dist)]);;
       call EMPI_Finalize;;
       exit 1);
  (* We don't technically need to broadcast here, but it's nicer if all the
     ranks have the same loss value at the end. *)
  loss ← MPI_Bcast loss (* root *) 2 (pp_comm dist);
  read_float "loss" loss.

End Forward.

(** ** The driver [main] *)

(** *** Command line *)

Definition isspace (c : ascii) : bool :=
  let n := nat_of_ascii c in
  (n =? 32)%nat || ((9 <=? n)%nat && (n <=? 13)%nat).

Definition digit_of (c : ascii) : option Z :=
  let n := Z.of_nat (nat_of_ascii c) in
  if (48 <=? n) && (n <=? 57) then Some (n - 48) else None.

Fixpoint atoi_digits (s : string) (acc : Z) : Z :=
  match s with
  | String c s' =>
      match digit_of c with
      | Some d => atoi_digits s' (10 * acc + d)
      | None => acc
      end
  | EmptyString => acc
  end.

Definition atoi_signed (s : string) : Z :=
  match s with
  | String "-" s' => - atoi_digits s' 0
  | String "+" s' => atoi_digits s' 0
  | _ => atoi_digits s 0
  end.

(** The result of [strtol] is a [long] (64 bits): a value outside its
    range is replaced by the nearest bound. *)
Definition clamp_long (z : Z) : Z :=
  Z.max (-9223372036854775808) (Z.min 9223372036854775807 z).

(** Conversion to [int] (32 bits, two's complement) keeps the low 32
    bits. *)
Definition to_int (z : Z) : Z :=
  (z + 2147483648) mod 4294967296 - 2147483648.

(** [strtol(s, NULL, 10)] of the C library: optional white space, an
    optional sign, then decimal digits up to the first other character. *)
Fixpoint strtol (s : string) : Z :=
  match s with
  | String c s' => if isspace c then strtol s' else clamp_long (atoi_signed s)
  | EmptyString => 0
  end.

(** [atoi] of the C library.  It returns an [int]: ISO C leaves the result
    undefined when the number does not fit; the library the program is
    linked with on Linux computes [(int) strtol(s, NULL, 10)], so that a
    number from [2^31] on comes back wrapped. *)
Definition atoi (s : string) : Z := to_int (strtol s).

(** The outcome of the argument loop: the two variables, each still
    uninitialised ([None]) or assigned, unless the loop handed [argv[argc]]
    to [atoi]. *)
Inductive Args :=
| Parsed (tp_size dp_size : option Z)
| PastEnd (index : nat).

(** [for (int i = 0; i < argc; i++)]: [rest] is [argv[i..argc)], so the
    element after its head is [argv[i+1]]. *)
Fixpoint parse_loop (rest : list string) (i : nat)
    (tp_size dp_size : option Z) : Args :=
  match rest with
  | [] => Parsed tp_size dp_size
  | arg :: rest' =>
      if String.eqb arg "--tp" then
        match rest' with
        | v :: _ => parse_loop rest' (S i) (Some (atoi v)) dp_size
        | [] => PastEnd (S i)
        end
      else if String.eqb arg "--dp" then
        match rest' with
        | v :: _ => parse_loop rest' (S i) tp_size (Some (atoi v))
        | [] => PastEnd (S i)
        end
      else parse_loop rest' (S i) tp_size dp_size
  end.

Definition parse_args (argv : list string) : Args :=
  parse_loop argv 0 None None.

(** Padded vocabulary size, as computed in [main]. *)
Definition vocab_size_padded (vocab_size dp_size : Z) : Z :=
  vocab_size + (dp_size - Z.rem vocab_size dp_size).

Definition sizeof_int : Z := 4.
Definition sizeof_float : Z := 4.

Section Driver.

Context {float : Type} `{Kernels float}.

Local Abbreviation M := (M float).

(** Reading a local [int] variable. *)
Definition read_int (var : string) (x : option Z) : M Z :=
  match x with
  | Some v => mret v
  | None => undefined (UninitializedRead var)
  end.

(** The scratch-buffer size computed by [main] from the layers of the
    (padded, not yet sharded) model. *)
Definition max_layer_size (model : Model) (dist : Dist) : Z :=
  let max_layer_size := 0 in
  let max_layer_size :=
    Z.max (Embedding_numel (wte model) * dp_size dist) max_layer_size in
  let max_layer_size :=
    Z.max (Linear_weight_numel (fc_1 model) * dp_size dist) max_layer_size in
  let max_layer_size :=
    Z.max (Linear_weight_numel (fc_2 model) * dp_size dist) max_layer_size in
  max_layer_size.

(** The body of [main]; the constants set at its top are parameters here,
    with [hidden_size = 4 * emb_size]. *)
Definition main_body (global_batch_size seq_len vocab_size emb_size : Z)
    (argv : list string) : M Z :=
  let hidden_size := 4 * emb_size in
  (* Initialize environment. *)
  match parse_args argv with
  | PastEnd i => undefined (ReadPastArgv i)
  | Parsed tp_var dp_var =>
    let pp := 3 in (* Pipeline parallelism only supports 3 ranks. *)
    call (Esrand 42);;
    call EMPI_Init;;
    tp ← read_int "tp_size" tp_var;
    dp ← read_int "dp_size" dp_var;
    dist ← call (EDist_create tp dp pp);
    (* Compute per-rank batch size from the global batch size. *)
    if decide (dp_size dist = 0) then undefined DivisionByZero
    else if decide (Z.rem global_batch_size (dp_size dist) <> 0) then
      call (Erank0_printf (world_rank dist)
              "Global batch size must be divisible by world size!\n" []);;
      call EMPI_Finalize;;
      exit 1
    else
    let batch_size := Z.quot global_batch_size (dp_size dist) in
    call (Erank0_printf (world_rank dist) "Micro batch_size: %d\n"
            [PInt batch_size]);;
    (* Create dataset. *)
    dataset ← call (EDataset_create_from_file "data/names.txt" seq_len);
    splits ← call (EDataset_train_test_split dataset (9 # 10));
    let train_split := fst splits in
    global_Xs ← call (Emalloc (sizeof_int * global_batch_size * seq_len));
    global_Ys ← call (Emalloc (sizeof_int * global_batch_size));
    Xs ← call (Emalloc (sizeof_int * batch_size * seq_len));
    Ys ← call (Emalloc (sizeof_int * batch_size));
    (* Create model with padded vocab. *)
    (st ← call (EModel_create batch_size seq_len vocab_size emb_size
                  hidden_size);
     put st);;
    let vocab_size_padded := vocab_size_padded vocab_size (dp_size dist) in
    (st ← call (EModel_pad_vocab vocab_size_padded); put st);;
    call (Erank0_printf (world_rank dist) "Padded vocab size: %d\n"
            [PInt vocab_size_padded]);;
    (* Create temporary buffer to store allgathered params/grads of
       individual layers. *)
    model ← gets st_model;
    let max_layer_size := max_layer_size model dist in
    call (Erank0_printf (world_rank dist) "Maximum layer size: %d\n"
            [PInt max_layer_size]);;
    flat_buffer ← call (Emalloc (sizeof_float * 2 * max_layer_size));
    (* Shard the model. Must happen _after_ the temporary buffer creation
       because Model_shard_pp deallocates fc_1 and fc_2. *)
    Model_shard_3d dist;;
    (* Train. *)
    batch ← call (EDataset_get_rank_batch train_split global_batch_size
                    (dp_rank dist) (dp_size dist));
    loss ← Model_forward_3d (fst batch) (snd batch) flat_buffer dist;
    loss ← allreduce_mean_var loss (dp_comm dist) (dp_size dist);
    call (Erank0_printf (world_rank dist) "step: %d, loss %f\n"
            [PInt 0; PFloat loss]);;
    call EMPI_Finalize;;
    mret 0
  end.

Definition main (argv : list string) : M Z :=
  main_body 32 16 27 16 argv.

End Driver.

(** ** Runs of one rank

    The environment answers every call; its answer may depend on everything
    that happened before.  A run yields the calls in order, each with the
    memory of the rank when the call was issued, and the way the program
    ended.  These are the runs in which every call returns; the runs in
    which a callee ends the process or blocks are those of [run_env]
    below. *)

Inductive Outcome (A : Type) :=
| Returned (a : A)
| Exited (code : Z)
| Undefined (why : UB).

Arguments Returned {A} a.
Arguments Exited {A} code.
Arguments Undefined {A} why.

Section Runs.

Context {float : Type}.

Definition Trace := list (State float * Ext float).

Definition Oracle := Trace -> forall e : Ext float, Reply e.

Fixpoint run_with {A} (h : Oracle) (hist : Trace) (p : Prog float A)
    : Trace * Outcome A :=
  match p with
  | Ret a => ([], Returned a)
  | Exit c => ([], Exited c)
  | Undef w => ([], Undefined w)
  | Vis st e k =>
      let rest := run_with h (hist ++ [(st, e)]) (k (h hist e)) in
      ((st, e) :: fst rest, snd rest)
  end.

Definition run {A} (h : Oracle) (m : M float A) (st : State float)
    : Trace * Outcome (A * State float) :=
  run_with h [] (m st).

Definition calls (tr : Trace) : list (Ext float) := map snd tr.

End Runs.

Arguments Trace : clear implicits.
Arguments Oracle : clear implicits.

(** ** Worlds of ranks

    A rank is identified by its (tp, dp, pp) coordinates.  The world runs
    every rank's program; a collective fires when every member of the group
    has reached it, a send fires together with the matching receive, and a
    local call (kernel, print, runtime shutdown) fires on its own. *)

Abbreviation Rank := (Z * Z * Z)%type.

(** Modelled from the spec: [Dist_create] of [distributed.c] is not in the
    sources.  The topology record of the rank with the given coordinates:
    the three groups are the ranks sharing the two other coordinates. *)
Definition topology (tp dp : Z) (wr : Z) (r : Rank) : Dist :=
  let '(t, d, p) := r in
  {| world_rank := wr;
     tp_rank := t; tp_size := tp;
     dp_rank := d; dp_size := dp;
     pp_rank := p; pp_size := 3;
     tp_comm := TPComm d p; dp_comm := DPComm t p; pp_comm := PPComm t d |}.

(** Modelled from the spec: the members of a group, by ascending in-group
    rank; the in-group rank is the coordinate along the axis of the group,
    so that rank [i] of a pipeline group is its stage [i]. *)
Definition members (tp dp : Z) (c : Comm) : list Rank :=
  match c with
  | TPComm d p => (fun t => (t, d, p)) <$> seqZ 0 tp
  | DPComm t p => (fun d => (t, d, p)) <$> seqZ 0 dp
  | PPComm t d => (fun p => (t, d, p)) <$> seqZ 0 3
  end.

Definition member (tp dp : Z) (c : Comm) (i : Z) : option Rank :=
  if decide (0 <= i) then members tp dp c !! Z.to_nat i else None.

Definition index_in (c : Comm) (r : Rank) : Z :=
  let '(t, d, p) := r in
  match c with
  | TPComm _ _ => t
  | DPComm _ _ => d
  | PPComm _ _ => p
  end.

Inductive Action :=
| ALocal (r : Rank)
| AAllgather (c : Comm)
| AAllreduce (c : Comm)
| ABcast (c : Comm) (root : Z)
| ASendRecv (c : Comm) (from_rank to_rank : Z).

Section World.

Context {float : Type} `{Kernels float}.

Record Proc := mkProc {
  p_log : Trace float;
  p_prog : Prog float (float * State float)
}.

Record World := mkWorld {
  w_tp : Z;
  w_dp : Z;
  w_procs : gmap Rank Proc
}.

(** An answer to the call a rank is blocked on, if the call is one the
    action at hand serves. *)
Definition Answer := forall e : Ext float, option (Reply e).

Definition advance (ans : Answer) (p : Proc) : option Proc :=
  match p_prog p with
  | Vis st e k =>
      match ans e with
      | Some x => Some (mkProc (p_log p ++ [(st, e)]) (k x))
      | None => None
      end
  | _ => None
  end.

Definition head_call (p : Proc) : option (Ext float) :=
  match p_prog p with
  | Vis _ e _ => Some e
  | _ => None
  end.

(** Local calls of the forward protocol answer [tt]. *)
Definition ans_local : Answer := fun e =>
  match e return option (Reply e) with
  | EKernel _ => Some tt
  | Eprintf _ _ => Some tt
  | EMPI_Finalize => Some tt
  | _ => None
  end.

Definition ans_allgather (c : Comm) (gathered : list float) : Answer :=
  fun e =>
  match e return option (Reply e) with
  | EAllgather _ c' => if decide (c' = c) then Some gathered else None
  | _ => None
  end.

(** Element-wise mean: element [i] of the result is the mean of the
    elements [i] of the contributions. *)
Fixpoint columns (n : nat) (datas : list (list float)) : list (list float) :=
  match n with
  | O => []
  | S n' => omap head datas :: columns n' (map (drop 1) datas)
  end.

Definition mean_of (datas : list (list float)) (size : Z) : list float :=
  map (fun col => eval_mean col size)
      (columns (length (default [] (head datas))) datas).

Definition ans_allreduce (c : Comm) (datas : list (list float)) : Answer :=
  fun e =>
  match e return option (Reply e) with
  | EAllreduce_mean _ c' size =>
      if decide (c' = c) then Some (mean_of datas size) else None
  | _ => None
  end.

Definition ans_bcast (c : Comm) (root : Z) (v : float) : Answer :=
  fun e =>
  match e return option (Reply e) with
  | EBcast _ root' c' =>
      if decide (c' = c /\ root' = root) then Some v else None
  | _ => None
  end.

Definition ans_send (c : Comm) (to_rank : Z) : Answer :=
  fun e =>
  match e return option (Reply e) with
  | ESend _ _ to' c' =>
      if decide (c' = c /\ to' = to_rank) then Some tt else None
  | _ => None
  end.

Definition ans_recv (c : Comm) (from_rank : Z) (count : Z)
    (data : list float) : Answer :=
  fun e =>
  match e return option (Reply e) with
  | ERecv count' from' c' =>
      if decide (c' = c /\ from' = from_rank /\ count' = count)
      then Some data else None
  | _ => None
  end.

(** What a rank blocked on a collective contributes to it. *)
Definition contrib_allgather (c : Comm) (p : Proc) : option (list float) :=
  match head_call p with
  | Some (EAllgather shard c') => if decide (c' = c) then Some shard else None
  | _ => None
  end.

Definition contrib_allreduce (c : Comm) (p : Proc) : option (list float) :=
  match head_call p with
  | Some (EAllreduce_mean data c' _) =>
      if decide (c' = c) then Some data else None
  | _ => None
  end.

Definition contrib_bcast (c : Comm) (root : Z) (p : Proc) : option float :=
  match head_call p with
  | Some (EBcast buf root' c') =>
      if decide (c' = c /\ root' = root) then buf else None
  | _ => None
  end.

Definition contrib_send (c : Comm) (to_rank : Z) (p : Proc)
    : option (list float * Z) :=
  match head_call p with
  | Some (ESend data count to' c') =>
      if decide (c' = c /\ to' = to_rank) then Some (data, count) else None
  | _ => None
  end.

(** Every rank of [rs] takes the answer. *)
Fixpoint advance_all (ans : Answer) (rs : list Rank) (procs : gmap Rank Proc)
    : option (gmap Rank Proc) :=
  match rs with
  | [] => Some procs
  | r :: rs' =>
      p ← procs !! r;
      p' ← advance ans p;
      advance_all ans rs' (<[r := p']> procs)
  end.

Definition contributions {A} (f : Proc -> option A) (rs : list Rank)
    (procs : gmap Rank Proc) : option (list A) :=
  mapM (fun r => procs !! r ≫= f) rs.

(** Modelled from the spec: the contracts of the communication primitives
    ([distributed.c] and the message-passing runtime are not among the
    sources).  All calls block; an all-gather hands every member the
    concatenation of the shards by ascending in-group rank; the mean
    reduction hands every member the element-wise mean; a broadcast hands
    every member the root's value; a send is matched with the receive of
    the addressed rank, with the same count. *)
Definition fire (W : World) (a : Action) : option World :=
  let procs := w_procs W in
  let group := members (w_tp W) (w_dp W) in
  mkWorld (w_tp W) (w_dp W) <$>
  match a with
  | ALocal r => advance_all ans_local [r] procs
  | AAllgather c =>
      shards ← contributions (contrib_allgather c) (group c) procs;
      advance_all (ans_allgather c (concat shards)) (group c) procs
  | AAllreduce c =>
      datas ← contributions (contrib_allreduce c) (group c) procs;
      advance_all (ans_allreduce c datas) (group c) procs
  | ABcast c root =>
      r ← member (w_tp W) (w_dp W) c root;
      v ← procs !! r ≫= contrib_bcast c root;
      advance_all (ans_bcast c root v) (group c) procs
  | ASendRecv c from_rank to_rank =>
      s ← member (w_tp W) (w_dp W) c from_rank;
      r ← member (w_tp W) (w_dp W) c to_rank;
      msg ← procs !! s ≫= contrib_send c to_rank;
      if decide (s = r) then None else
      procs' ← advance_all (ans_send c to_rank) [s] procs;
      advance_all (ans_recv c from_rank (snd msg) (fst msg)) [r] procs'
  end.

Definition step (W W' : World) : Prop := exists a, fire W a = Some W'.

(** *** The effect of one firing on each rank *)

Definition no_bcast (ans : Answer) : Prop :=
  forall buf root c, ans (EBcast buf root c) = None.

(** What one firing does to each rank: it leaves it alone, or hands it one
    answer. *)
Definition untouched_or_advanced (ans : Answer) (procs procs' : gmap Rank Proc)
    (r : Rank) : Prop :=
  procs' !! r = procs !! r \/
  exists p p', procs !! r = Some p /\ advance ans p = Some p' /\
               procs' !! r = Some p'.

Inductive Fired (W W' : World) : Prop :=
| fired_quiet :
    (forall r, exists ans, no_bcast ans /\
       untouched_or_advanced ans (w_procs W) (w_procs W') r) ->
    Fired W W'
| fired_bcast c root R pR v :
    member (w_tp W) (w_dp W) c root = Some R ->
    w_procs W !! R = Some pR ->
    contrib_bcast c root pR = Some v ->
    (forall r,
       (r ∉ members (w_tp W) (w_dp W) c -> w_procs W' !! r = w_procs W !! r) /\
       (r ∈ members (w_tp W) (w_dp W) c ->
        exists p p', w_procs W !! r = Some p /\
                     advance (ans_bcast c root v) p = Some p' /\
                     w_procs W' !! r = Some p')) ->
    Fired W W'.


(** *** A scheduler *)

Definition action_of (r : Rank) (p : Proc) : option Action :=
  match head_call p with
  | Some (EAllgather _ c) => Some (AAllgather c)
  | Some (EAllreduce_mean _ c _) => Some (AAllreduce c)
  | Some (EBcast _ root c) => Some (ABcast c root)
  | Some (ESend _ _ to_rank c) => Some (ASendRecv c (index_in c r) to_rank)
  | Some (EKernel _) | Some (Eprintf _ _) | Some EMPI_Finalize =>
      Some (ALocal r)
  | _ => None
  end.

Fixpoint first_fire (W : World) (cands : list (Rank * Proc)) : option World :=
  match cands with
  | [] => None
  | (r, p) :: cands' =>
      match action_of r p ≫= fire W with
      | Some W' => Some W'
      | None => first_fire W cands'
      end
  end.

Definition sched (W : World) : option World :=
  first_fire W (map_to_list (w_procs W)).

Fixpoint run_world (fuel : nat) (W : World) : World :=
  match fuel with
  | O => W
  | S n =>
      match sched W with
      | Some W' => run_world n W'
      | None => W
      end
  end.

(** The value a rank has returned, if it has. *)
Definition result (W : World) (r : Rank) : option float :=
  p ← w_procs W !! r;
  match p_prog p with
  | Ret (v, _) => Some v
  | _ => None
  end.

Definition finished (W : World) : bool :=
  forallb (fun rp => match p_prog (snd rp) with
                     | Ret _ | Exit _ => true
                     | _ => false
                     end)
          (map_to_list (w_procs W)).

(** The loss a rank has computed: the value of its latest call of the loss
    kernel. *)
Definition loss_of_call (en : State float * Ext float) : option float :=
  match en with
  | (st, EKernel (Kcross_entropy_loss probs Ys)) =>
      Some (eval_cross_entropy_loss (st_heap st) probs Ys)
  | _ => None
  end.

Definition computed_loss (log : Trace float) : option float :=
  last (omap loss_of_call log).

(** *** Shapes of the programs of a pipeline group

    [awaits_bcast c p]: on every path, [p] returns only through a broadcast
    from root 2 over [c], and then returns the value it was handed.
    [computes_then_bcasts c p l]: the same for the root, which in addition
    offers as its own value the loss it computed last ([l] so far). *)
Fixpoint awaits_bcast (c : Comm) (p : Prog float (float * State float))
    : Prop :=
  match p with
  | Ret _ => False
  | Exit _ | Undef _ => True
  | Vis st e k =>
      match e as e0
        return (Reply e0 -> Prog float (float * State float)) ->
               (Reply e0 -> Prop) -> Prop
      with
      | EBcast buf root c' => fun k _ =>
          root = 2 /\ c' = c /\ forall v, exists s, k v = Ret (v, s)
      | _ => fun _ rec => forall x, rec x
      end k (fun x => awaits_bcast c (k x))
  end.

Definition latest_loss (l : option float) (en : State float * Ext float)
    : option float :=
  match loss_of_call en with
  | Some v => Some v
  | None => l
  end.

Fixpoint computes_then_bcasts (c : Comm)
    (p : Prog float (float * State float)) (l : option float) : Prop :=
  match p with
  | Ret _ => False
  | Exit _ | Undef _ => True
  | Vis st e k =>
      match e as e0
        return (Reply e0 -> Prog float (float * State float)) ->
               (Reply e0 -> Prop) -> Prop
      with
      | EBcast buf root c' => fun k _ =>
          buf = l /\ is_Some l /\ root = 2 /\ c' = c /\
          forall v, exists s, k v = Ret (v, s)
      | _ => fun _ rec => forall x, rec x
      end k (fun x => computes_then_bcasts c (k x) (latest_loss l (st, e)))
  end.

(** The state of a pipeline group (tp, dp) = (t, d) in a world: the root
    (stage 2) either still has its broadcast ahead or has returned the loss
    it computed; any other stage either still has the broadcast ahead or
    has returned what the root returned. *)
Definition root_ok (c : Comm) (p : Proc) : Prop :=
  match p_prog p with
  | Ret (v, _) => computed_loss (p_log p) = Some v
  | prog => computes_then_bcasts c prog (computed_loss (p_log p))
  end.

Definition other_ok (procs : gmap Rank Proc) (t d : Z) (p : Proc) : Prop :=
  match p_prog p with
  | Ret (v, _) =>
      exists pR sR, procs !! (t, d, 2) = Some pR /\
                    p_prog pR = Ret (v, sR) /\
                    computed_loss (p_log pR) = Some v
  | prog => awaits_bcast (PPComm t d) prog
  end.

Definition group_ok (W : World) : Prop :=
  forall t d p proc,
    w_procs W !! (t, d, p) = Some proc ->
    (p = 2 -> root_ok (PPComm t d) proc) /\
    (p = 0 \/ p = 1 -> other_ok (w_procs W) t d proc).

(** The world in which every rank is about to call [Model_forward_3d]. *)
Record Input := mkInput {
  in_state : State float;
  in_Xs : list Z;
  in_Ys : list Z;
  in_flat_buffer : addr;
  in_world_rank : Z
}.

Definition start (tp dp : Z) (r : Rank) (i : Input) : Proc :=
  mkProc []
    (Model_forward_3d (in_Xs i) (in_Ys i) (in_flat_buffer i)
       (topology tp dp (in_world_rank i) r) (in_state i)).

Definition init_world (tp dp : Z) (inputs : gmap Rank Input) : World :=
  mkWorld tp dp (map_imap (fun r i => Some (start tp dp r i)) inputs).

End World.

(** * Vocabulary of the statements *)

Section ForwardVocabulary.

Context {float : Type} `{Kernels float}.

(** The pointer and the effective shape field of the layer owned by a
    stage. *)
Definition layer_view (stage : Z) (m : Model) : addr * Z :=
  if decide (stage = 0) then (embedding (wte m), vocab_size (wte m))
  else if decide (stage = 1) then (weight (fc_1 m), in_features (fc_1 m))
  else (weight (fc_2 m), in_features (fc_2 m)).

Definition layer_numel (stage : Z) (m : Model) : Z :=
  if decide (stage = 0) then Embedding_numel (wte m)
  else if decide (stage = 1) then Linear_weight_numel (fc_1 m)
  else Linear_weight_numel (fc_2 m).

(** The kernel that computes with the layer of the stage. *)
Definition is_layer_kernel (e : Ext float) : bool :=
  match e with
  | EKernel (KEmbedding_forward _ _ _) | EKernel (KLinear_forward _ _ _) => true
  | _ => false
  end.

Definition layer_kernel_of (stage : Z) (m : Model) (call : KCall) : Prop :=
  match call with
  | KEmbedding_forward self _ _ => stage = 0 /\ self = wte m
  | KLinear_forward self _ _ =>
      (stage = 1 /\ self = fc_1 m) \/ (stage = 2 /\ self = fc_2 m)
  | _ => False
  end.

Definition is_loss_kernel (e : Ext float) : bool :=
  match e with
  | EKernel (Kcross_entropy_loss _ _) => true
  | _ => false
  end.

Definition is_bcast (e : Ext float) : bool :=
  match e with
  | EBcast _ _ _ => true
  | _ => false
  end.

(** The buffer at [p] starts with [data]. *)
Definition holds (h : Heap float) (p : addr) (data : list float) : Prop :=
  take (length data) (default [] (h !! p)) = data.

(** The claim as the specification words it: all ranks of the world hold
    the same loss once they have returned. *)
Definition every_rank_same_loss (W : @World float) : Prop :=
  forall r1 r2 v1 v2,
    result W r1 = Some v1 -> result W r2 = Some v2 -> v1 = v2.


End ForwardVocabulary.

(** ** What the forward program does around its collectives

    [always node p]: every call of [p], on every path, satisfies [node]
    (given the memory at the call, the call and the rest of the program). *)
Section ForwardShape.

Context {float : Type} `{Kernels float}.

Local Abbreviation Rest := (Prog float (float * State float)).
Local Abbreviation Input := (@Input float).
Local Abbreviation World := (@World float).

Definition Node : Type :=
  State float -> forall e : Ext float, (Reply e -> Rest) -> Prop.

Fixpoint always (node : Node) (p : Rest) : Prop :=
  match p with
  | Vis st e k => node st e k /\ forall x, always node (k x)
  | _ => True
  end.

(** The layer kernel [call], issued in memory [s_k], computes with the
    layer gathered from [shard], the rank's shard in memory [s_g]: the
    layer points at the scratch buffer [fb], which starts with [gathered],
    and its effective dimension is the shard's times [dpsz]. *)
Definition kernel_on_gathered (stage : Z) (fb : addr) (dpsz : Z)
    (s_g : State float) (shard gathered : list float)
    (s_k : State float) (call : KCall) : Prop :=
  shard = load (st_heap s_g) (fst (layer_view stage (st_model s_g)))
            (layer_numel stage (st_model s_g)) /\
  layer_kernel_of stage (st_model s_k) call /\
  fst (layer_view stage (st_model s_k)) = fb /\
  snd (layer_view stage (st_model s_k))
    = snd (layer_view stage (st_model s_g)) * dpsz /\
  holds (st_heap s_k) fb gathered.

(** An all-gather is over [c] and is followed, whatever it delivers, by
    the layer kernel on the gathered layer. *)
Definition gather_node (stage : Z) (fb : addr) (dpsz : Z) (c : Comm) : Node :=
  fun st e =>
  match e as e0 return (Reply e0 -> Rest) -> Prop with
  | EAllgather shard c' => fun k =>
      c' = c /\
      forall gathered, exists s_k call k',
        k gathered = Vis s_k (EKernel call) k' /\
        kernel_on_gathered stage fb dpsz st shard gathered s_k call
  | _ => fun _ => True
  end.

(** A program about to reduce the logits has just run the linear
    transform of [fc_2] into the logits slot. *)
Definition after_linear (m : Model) (prev : option (State float * Ext float))
    (p : Rest) : Prop :=
  match p with
  | Vis s3 (EAllreduce_mean _ _ _) _ =>
      exists s2 lin,
        prev = Some (s2, EKernel (KLinear_forward lin (relu_out m) (fc_2_out m)))
        /\ st_heap s3
           = store (st_heap s2) (value (fc_2_out m))
               (eval_Linear_forward lin (st_heap s2) (relu_out m) (fc_2_out m))
  | _ => True
  end.

(** A mean-reduction happens on stage 2 only, over [tpc], on the logits
    slot, and is followed by softmax on the reduced logits and then by the
    loss against [Ys]; the loss kernel is called on stage 2 only. *)
Definition reduce_node (stage : Z) (m : Model) (Ys : list Z) (tpc : Comm)
    (tpsz : Z) : Node :=
  fun st e =>
  match e as e0 return (Reply e0 -> Rest) -> Prop with
  | EAllreduce_mean logits c size => fun k =>
      stage = 2 /\ c = tpc /\ size = tpsz /\
      logits = load (st_heap st) (value (fc_2_out m))
                 (Activation_numel (fc_2_out m)) /\
      forall reduced, exists s4 k1 s5 k2,
        k reduced = Vis s4 (EKernel (Ksoftmax (fc_2_out m) (softmax_out m))) k1
        /\ st_heap s4 = store (st_heap st) (value (fc_2_out m)) reduced
        /\ k1 tt = Vis s5 (EKernel (Kcross_entropy_loss (softmax_out m) Ys)) k2
        /\ st_heap s5
           = store (st_heap s4) (value (softmax_out m))
               (eval_softmax (st_heap s4) (fc_2_out m) (softmax_out m))
  | EKernel (Kcross_entropy_loss _ _) => fun _ => stage = 2
  | _ => fun _ => True
  end.

Definition forward_node (tp dp : Z) (r : Rank) (i : Input) : Node :=
  fun st e k =>
  let '(t, d, p) := r in
  let m := st_model (in_state i) in
  gather_node p (in_flat_buffer i) dp (DPComm t p) st e k /\
  reduce_node p m (in_Ys i) (TPComm d p) tp st e k /\
  forall x, after_linear m (Some (st, e)) (k x).

(** Every rank of the world runs a program of this shape, and a rank about
    to reduce has the linear transform as its latest call. *)
Definition shape_ok (tp dp : Z) (inputs : gmap Rank Input) (W : World)
    : Prop :=
  forall r proc,
    w_procs W !! r = Some proc ->
    exists i, inputs !! r = Some i /\
      always (forward_node tp dp r i) (p_prog proc) /\
      after_linear (st_model (in_state i)) (last (p_log proc)) (p_prog proc).

End ForwardShape.

(** ** Where the data of a kernel call comes from

    The converse reading of the shapes above: a rank that is about to call
    a kernel has the matching collective as its latest call, and the
    memory the kernel sees holds what that collective delivered to the
    group. *)
Section Provenance.

Context {float : Type} `{Kernels float}.

Local Abbreviation Rest := (Prog float (float * State float)).
Local Abbreviation Input := (@Input float).
Local Abbreviation World := (@World float).
Local Abbreviation Proc := (@Proc float).

(** The shards handed to the all-gather of [c]: one per member, by
    ascending in-group rank, each recorded in the log of the member that
    contributed it. *)
Definition gathered_from (W : World) (c : Comm) (shards : list (list float))
    : Prop :=
  Forall2 (fun r shard =>
             exists proc s, w_procs W !! r = Some proc /\
                            (s, EAllgather shard c) ∈ p_log proc)
          (members (w_tp W) (w_dp W) c) shards.

(** The same for the buffers handed to the mean-reduction of [c]. *)
Definition reduced_from (W : World) (c : Comm) (datas : list (list float))
    : Prop :=
  Forall2 (fun r data =>
             exists proc s size, w_procs W !! r = Some proc /\
                                 (s, EAllreduce_mean data c size) ∈ p_log proc)
          (members (w_tp W) (w_dp W) c) datas.

(** What the latest call must have been when a kernel is about to be
    called: the all-gather before a layer kernel, the mean-reduction before
    softmax, softmax before the loss. *)
Definition preceded (prev : option (State float * Ext float)) (p : Rest)
    : Prop :=
  match p with
  | Vis _ (EKernel call) _ =>
      match call with
      | KEmbedding_forward _ _ _ | KLinear_forward _ _ _ =>
          exists s shard c, prev = Some (s, EAllgather shard c)
      | Ksoftmax _ _ =>
          exists s data c size, prev = Some (s, EAllreduce_mean data c size)
      | Kcross_entropy_loss _ _ =>
          exists s inp out, prev = Some (s, EKernel (Ksoftmax inp out))
      | Krelu _ _ => True
      end
  | _ => True
  end.

Definition preceded_node : Node :=
  fun st e k => forall x, preceded (Some (st, e)) (k x).

(** A rank whose latest call is the all-gather is about to call its layer
    kernel on the layer gathered from the shards of its group. *)
Definition gather_delivered (dp : Z) (W : World) (r : Rank) (i : Input)
    (proc : Proc) : Prop :=
  let '(t, d, p) := r in
  forall s_g shard c,
    last (p_log proc) = Some (s_g, EAllgather shard c) ->
    exists shards s_k call k',
      c = DPComm t p /\
      gathered_from W c shards /\
      p_prog proc = Vis s_k (EKernel call) k' /\
      kernel_on_gathered p (in_flat_buffer i) dp s_g shard (concat shards)
        s_k call.

(** A rank whose latest call is the mean-reduction is a stage-2 rank about
    to call softmax on the logits slot, which holds the mean of the
    buffers of its group; the loss against its labels comes next. *)
Definition mean_delivered (tp : Z) (W : World) (r : Rank) (i : Input)
    (proc : Proc) : Prop :=
  let '(t, d, p) := r in
  let m := st_model (in_state i) in
  forall s3 logits c size,
    last (p_log proc) = Some (s3, EAllreduce_mean logits c size) ->
    exists datas s4 k1 s5 k2,
      p = 2 /\ c = TPComm d 2 /\ size = tp /\
      reduced_from W c datas /\
      logits = load (st_heap s3) (value (fc_2_out m))
                 (Activation_numel (fc_2_out m)) /\
      p_prog proc
        = Vis s4 (EKernel (Ksoftmax (fc_2_out m) (softmax_out m))) k1 /\
      st_heap s4 = store (st_heap s3) (value (fc_2_out m)) (mean_of datas tp) /\
      k1 tt = Vis s5 (EKernel (Kcross_entropy_loss (softmax_out m) (in_Ys i)))
                k2 /\
      st_heap s5 = store (st_heap s4) (value (softmax_out m))
                     (eval_softmax (st_heap s4) (fc_2_out m) (softmax_out m)).

(** A rank whose latest call is softmax is a stage-2 rank about to call
    the loss kernel; the call before softmax was the mean-reduction, and
    softmax ran on the reduced logits. *)
Definition softmax_done (tp : Z) (W : World) (r : Rank) (i : Input)
    (proc : Proc) : Prop :=
  let '(t, d, p) := r in
  let m := st_model (in_state i) in
  forall s4 inp out,
    last (p_log proc) = Some (s4, EKernel (Ksoftmax inp out)) ->
    exists pre s3 logits datas s5 k2,
      p = 2 /\
      p_log proc = pre ++ [(s3, EAllreduce_mean logits (TPComm d 2) tp);
                           (s4, EKernel (Ksoftmax inp out))] /\
      reduced_from W (TPComm d 2) datas /\
      logits = load (st_heap s3) (value (fc_2_out m))
                 (Activation_numel (fc_2_out m)) /\
      inp = fc_2_out m /\ out = softmax_out m /\
      st_heap s4 = store (st_heap s3) (value (fc_2_out m)) (mean_of datas tp) /\
      p_prog proc
        = Vis s5 (EKernel (Kcross_entropy_loss (softmax_out m) (in_Ys i))) k2 /\
      st_heap s5 = store (st_heap s4) (value (softmax_out m))
                     (eval_softmax (st_heap s4) (fc_2_out m) (softmax_out m)).

Definition provenance_ok (tp dp : Z) (inputs : gmap Rank Input) (W : World)
    : Prop :=
  forall r proc,
    w_procs W !! r = Some proc ->
    exists i, inputs !! r = Some i /\
      always preceded_node (p_prog proc) /\
      preceded (last (p_log proc)) (p_prog proc) /\
      gather_delivered dp W r i proc /\
      mean_delivered tp W r i proc /\
      softmax_done tp W r i proc.

End Provenance.

Section CallKinds.

Context {float : Type}.

Definition is_collective (e : Ext float) : bool :=
  match e with
  | EAllgather _ _ | EAllreduce_mean _ _ _ | EBcast _ _ _ => true
  | _ => false
  end.

Definition is_point_to_point (e : Ext float) : bool :=
  match e with
  | ESend _ _ _ _ | ERecv _ _ _ => true
  | _ => false
  end.

(** Modelled from the spec: [Dist_create] of [distributed.c] is not in the
    sources; it derives the three communicator groups, a step in which
    every process takes part. *)
Definition is_group_creation (e : Ext float) : bool :=
  match e with
  | EDist_create _ _ _ => true
  | _ => false
  end.

Definition is_communication (e : Ext float) : bool :=
  is_collective e || is_point_to_point e || is_group_creation e.

Definition is_shard_call (e : Ext float) : bool :=
  match e with
  | EModel_shard_tp _ _ | EModel_shard_fsdp _ _ | EModel_shard_pp _ => true
  | _ => false
  end.

Definition is_print (e : Ext float) : bool :=
  match e with
  | Eprintf _ _ | Erank0_printf _ _ _ => true
  | _ => false
  end.

End CallKinds.

(** [m] is the smallest multiple of [d] that is at least [v]. *)
Definition least_multiple_from (d v m : Z) : Prop :=
  (d | m) /\ v <= m /\ forall m', (d | m') -> v <= m' -> m <= m'.

(** ** The argument loop *)

(** Both flags occur, and the last argument is not a flag (so every
    occurrence of a flag is followed by an argument). *)
Definition both_flags_with_values (argv : list string) : Prop :=
  "--tp" ∈ argv /\ "--dp" ∈ argv /\
  last argv <> Some "--tp" /\ last argv <> Some "--dp".


(** ** A concrete instance

    Integer stand-ins for the numeric kernels (the orchestration does not
    depend on what they compute), and a small world with [tp_size = 1] and
    [dp_size = 2]: two pipeline groups of three stages each. *)
Module Demo.

Definition sum (l : list Z) : Z := foldr Z.add 0 l.

Definition table (h : Heap Z) (p : addr) : list Z := default [] (h !! p).

Definition row (width : Z) (data : list Z) (i : Z) : list Z :=
  take (Z.to_nat width) (drop (Z.to_nat (i * width)) data).

Definition dot (a b : list Z) : Z := sum (zip_with Z.mul a b).

Definition column (width : Z) (data : list Z) (rows : Z) (j : Z) : list Z :=
  (fun i => default 0 (data !! Z.to_nat (i * width + j))) <$> seqZ 0 rows.

#[global] Instance kernels : Kernels Z := {|
  Embedding_numel e := vocab_size e * emb_size e;
  Linear_weight_numel l := in_features l * out_features l;
  Activation_numel a := act_batch_size a * act_features a;
  eval_Embedding_forward e h Xs out :=
    concat ((row (emb_size e) (table h (embedding e))) <$> Xs);
  eval_Linear_forward l h inp out :=
    concat ((fun b =>
               (fun j => dot (row (in_features l) (table h (value inp)) b)
                             (column (out_features l) (table h (weight l))
                                     (in_features l) j))
               <$> seqZ 0 (out_features l))
            <$> seqZ 0 (act_batch_size out));
  eval_relu h inp out := Z.max 0 <$> load h (value inp) (act_batch_size inp * act_features inp);
  eval_softmax h inp out := load h (value inp) (act_batch_size inp * act_features inp);
  eval_cross_entropy_loss h probs Ys :=
    sum (zip_with (fun b y => default 0 (row (act_features probs)
                                           (table h (value probs)) b
                                         !! Z.to_nat y))
                  (seqZ 0 (act_batch_size probs)) Ys);
  eval_mean col size := Z.quot (sum col) size
|}.

(** Padded vocabulary 4, embedding size 1, sequence length 2, hidden size
    2 and per-rank batch size 1, sharded over [dp_size = 2]. *)
Definition model : Model := {|
  wte := {| embedding := 1%N; vocab_size := 2; emb_size := 1 |};
  fc_1 := {| weight := 2%N; bias := 3%N; in_features := 1; out_features := 2 |};
  fc_2 := {| weight := 4%N; bias := 5%N; in_features := 1; out_features := 4 |};
  wte_out := {| value := 10%N; act_batch_size := 2; act_features := 1 |};
  wte_out_flat := {| value := 10%N; act_batch_size := 1; act_features := 2 |};
  fc_1_out := {| value := 11%N; act_batch_size := 1; act_features := 2 |};
  relu_out := {| value := 12%N; act_batch_size := 1; act_features := 2 |};
  fc_2_out := {| value := 13%N; act_batch_size := 1; act_features := 4 |};
  softmax_out := {| value := 14%N; act_batch_size := 1; act_features := 4 |}
|}.

Definition flat_buffer : addr := 20%N.

Definition activations : Heap Z :=
  {[ 10%N := [0; 0]; 11%N := [0; 0]; 12%N := [0; 0];
     13%N := [0; 0; 0; 0]; 14%N := [0; 0; 0; 0];
     flat_buffer := replicate 16 0 ]}.

(** The parameter shard a rank holds after sharding: only the layer of its
    own stage, and of it the block of its data-parallel coordinate. *)
Definition shard (d p : Z) : Heap Z :=
  if decide (p = 0) then
    {[ 1%N := if decide (d = 0) then [1; 2] else [3; 4] ]}
  else if decide (p = 1) then
    {[ 2%N := if decide (d = 0) then [1; 0] else [0; 1] ]}
  else
    {[ 4%N := if decide (d = 0) then [1; 2; 3; 4] else [5; 6; 7; 8] ]}.

Definition heap (d p : Z) : Heap Z := shard d p ∪ activations.

Definition state (d p : Z) : State Z := mkState model (heap d p).

Definition Xs (d : Z) : list Z := if decide (d = 0) then [0; 1] else [2; 3].
Definition Ys (d : Z) : list Z := if decide (d = 0) then [0] else [3].

Definition input (r : Rank) : Input :=
  let '(t, d, p) := r in
  mkInput (state d p) (Xs d) (Ys d) flat_buffer (p * 2 + d).

Definition ranks : list Rank :=
  [(0, 0, 0); (0, 1, 0); (0, 0, 1); (0, 1, 1); (0, 0, 2); (0, 1, 2)].

Definition inputs : gmap Rank Input :=
  list_to_map ((fun r => (r, input r)) <$> ranks).

Definition world0 : World := init_world 1 2 inputs.

Definition world_end : World := run_world 64 world0.

(** What the buffer at [a] held on rank [r] when it issued its call number
    [i]. *)
Definition seen (W : World) (r : Rank) (i : nat) (a : addr)
    : option (list Z) :=
  p ← w_procs W !! r;
  en ← p_log p !! i;
  st_heap (fst en) !! a.

(** A second world, with [tp_size = 2] and [dp_size = 1]: one batch, two
    tensor-parallel ranks per stage holding different [fc_2] weights. *)
Definition model_tp : Model := {|
  wte := {| embedding := 1%N; vocab_size := 4; emb_size := 1 |};
  fc_1 := {| weight := 2%N; bias := 3%N; in_features := 2; out_features := 2 |};
  fc_2 := {| weight := 4%N; bias := 5%N; in_features := 2; out_features := 4 |};
  wte_out := wte_out model;
  wte_out_flat := wte_out_flat model;
  fc_1_out := fc_1_out model;
  relu_out := relu_out model;
  fc_2_out := fc_2_out model;
  softmax_out := softmax_out model
|}.

Definition shard_tp (t p : Z) : Heap Z :=
  if decide (p = 0) then {[ 1%N := [1; 2; 3; 4] ]}
  else if decide (p = 1) then {[ 2%N := [1; 0; 0; 1] ]}
  else {[ 4%N := if decide (t = 0) then [1; 2; 3; 4; 5; 6; 7; 8]
                 else [3; 4; 5; 6; 7; 8; 9; 10] ]}.

Definition input_tp (r : Rank) : Input :=
  let '(t, d, p) := r in
  mkInput (mkState model_tp (shard_tp t p ∪ activations)) (Xs 0) (Ys 0)
    flat_buffer (p * 2 + t).

Definition ranks_tp : list Rank :=
  [(0, 0, 0); (1, 0, 0); (0, 0, 1); (1, 0, 1); (0, 0, 2); (1, 0, 2)].

Definition world_tp : World :=
  init_world 2 1 (list_to_map ((fun r => (r, input_tp r)) <$> ranks_tp)).



(** An environment for one rank on its own: collectives hand back the
    rank's own contribution, receives hand back zeros. *)
Definition echo : Oracle Z := fun _ e =>
  match e return Reply e with
  | EAllgather shard _ => shard ++ shard
  | ESend _ _ _ _ => tt
  | ERecv count _ _ => replicate (Z.to_nat count) 0
  | EAllreduce_mean data _ _ => data
  | EBcast buf _ _ => default 7 buf
  | Esrand _ | EMPI_Init | EMPI_Finalize => tt
  | EDist_create tp dp pp => topology tp dp 0 (0, 0, 0)
  | Eprintf _ _ | Erank0_printf _ _ _ => tt
  | Emalloc _ => flat_buffer
  | EKernel _ => tt
  | EModel_create _ _ _ _ _ => state 0 0
  | EModel_pad_vocab _ => state 0 0
  | EModel_shard_tp _ _ | EModel_shard_fsdp _ _ | EModel_shard_pp _ =>
      state 0 0
  | EDataset_create_from_file _ _ => 1%N
  | EDataset_train_test_split _ _ => (2%N, 3%N)
  | EDataset_get_rank_batch _ _ _ _ => (Xs 0, Ys 0)
  end.

Definition argv_ok : list string := ["a.out"; "--tp"; "1"; "--dp"; "2"].
Definition argv_odd : list string := ["a.out"; "--tp"; "1"; "--dp"; "3"].

End Demo.

(** * Vocabulary of the further properties *)

(** [m] is the smallest multiple of [d] strictly above [v]. *)
Definition least_multiple_above (d v m : Z) : Prop :=
  (d | m) /\ v < m /\ forall m', (d | m') -> v < m' -> m <= m'.

(** The buffers a stage of [Model_forward_3d] writes: the scratch buffer
    and the activation slots the stage receives into or computes. *)
Definition written (m : Model) (flat_buffer : addr) (stage : Z) : list addr :=
  if decide (stage = 0) then
    [flat_buffer; value (wte_out m)]
  else if decide (stage = 1) then
    [value (wte_out_flat m); flat_buffer; value (fc_1_out m);
     value (relu_out m)]
  else if decide (stage = 2) then
    [value (relu_out m); flat_buffer; value (fc_2_out m);
     value (softmax_out m)]
  else [].

Section DriverVocabulary.

Context {float : Type}.

(** The calls [Model_forward_3d] may issue on a rank with topology [dist],
    and the communicator, peer and root each of them may use. *)
Definition forward_call_ok (dist : Dist) (e : Ext float) : Prop :=
  match e with
  | EAllgather _ comm => comm = dp_comm dist
  | ESend _ _ to_rank comm =>
      comm = pp_comm dist /\ to_rank = pp_rank dist + 1 /\ to_rank <= 2
  | ERecv _ from_rank comm =>
      comm = pp_comm dist /\ from_rank = pp_rank dist - 1 /\ 0 <= from_rank
  | EAllreduce_mean _ comm size =>
      comm = tp_comm dist /\ size = tp_size dist /\ pp_rank dist = 2
  | EBcast _ root comm => comm = pp_comm dist /\ root = 2
  | EKernel _ => True
  | Eprintf _ _ | EMPI_Finalize =>
      pp_rank dist <> 0 /\ pp_rank dist <> 1 /\ pp_rank dist <> 2
  | _ => False
  end.

Definition is_init_or_finalize (e : Ext float) : bool :=
  match e with
  | EMPI_Init | EMPI_Finalize => true
  | _ => false
  end.

(** A sequence of calls that seeds the random numbers, initialises MPI,
    and finalises MPI with its last call, with no further initialisation
    or finalisation in between. *)
Definition mpi_bracketed (cs : list (Ext float)) : Prop :=
  exists mid,
    cs = Esrand 42 :: EMPI_Init :: mid ++ [EMPI_Finalize] /\
    Forall (fun e => is_init_or_finalize e = false) mid.

End DriverVocabulary.

(** ** Runs in which a call may not return

    [run] describes the runs in which every call returns.  A callee may
    also end the process (the specification has [Dist_create] and the
    sharding routines fail fatally on a configuration they cannot serve)
    or block for ever (a collective whose group never completes).  In a
    run of the more general kind the environment may leave a call
    unanswered, and the run then stops inside that call. *)
Inductive Ending (float A : Type) :=
| Ended (o : Outcome A)
(* the call [e], issued in memory [st], has not returned *)
| Pending (st : State float) (e : Ext float).

Arguments Ended {float A} o.
Arguments Pending {float A} st e.

Section Envs.

Context {float : Type}.

(** An environment that may leave a call unanswered. *)
Definition Env := Trace float -> forall e : Ext float, option (Reply e).

Fixpoint run_env {A} (h : Env) (hist : Trace float) (p : Prog float A)
    : Trace float * Ending float A :=
  match p with
  | Ret a => ([], Ended (Returned a))
  | Exit c => ([], Ended (Exited c))
  | Undef w => ([], Ended (Undefined w))
  | Vis st e k =>
      match h hist e with
      | Some x =>
          let rest := run_env h (hist ++ [(st, e)]) (k x) in
          ((st, e) :: fst rest, snd rest)
      | None => ([(st, e)], Pending st e)
      end
  end.

(** The environments in which every call returns. *)
Definition total (h : Oracle float) : Env := fun hist e => Some (h hist e).

End Envs.

(** * Facts about worlds *)

Section WorldFacts.

Context {float : Type} `{Kernels float}.

Local Abbreviation Proc := (@Proc float).
Local Abbreviation World := (@World float).
Local Abbreviation Answer := (@Answer float).

Lemma members_NoDup tp dp c : NoDup (members tp dp c).
Proof.
  destruct c; unfold members;
    (apply NoDup_fmap_2_strong; [intros x y _ _ Heq; congruence|]);
    apply NoDup_seqZ.
Qed.

Lemma member_elem tp dp c i r : member tp dp c i = Some r -> r ∈ members tp dp c.
Proof.
  unfold member. case_decide; [|done].
  intros Hl. apply list_elem_of_lookup. eauto.
Qed.

Lemma member_pp tp dp t d i r :
  member tp dp (PPComm t d) i = Some r -> r = (t, d, i) /\ 0 <= i < 3.
Proof.
  unfold member, members. case_decide; [|done].
  rewrite list_lookup_fmap. intros Hl.
  destruct (seqZ 0 3 !! Z.to_nat i) as [j|] eqn:Hj; [|done].
  apply lookup_seqZ in Hj. simpl in Hl. injection Hl as <-.
  split; [f_equal; lia | lia].
Qed.

Lemma members_pp tp dp t d r :
  r ∈ members tp dp (PPComm t d) <-> exists p, r = (t, d, p) /\ 0 <= p < 3.
Proof.
  unfold members. rewrite list_elem_of_fmap. setoid_rewrite elem_of_seqZ.
  split; intros (p & ? & ?); exists p; split; auto; lia.
Qed.

Lemma advance_inv (ans : Answer) (p p' : Proc) :
  advance ans p = Some p' ->
  exists st e k x, p_prog p = Vis st e k /\ ans e = Some x /\
                   p' = mkProc (p_log p ++ [(st, e)]) (k x).
Proof.
  unfold advance. destruct (p_prog p) as [| | |st e k]; try done.
  destruct (ans e) as [x|] eqn:Hx; [|done].
  intros [= <-]. eauto 10.
Qed.

Lemma advance_all_spec (ans : Answer) (rs : list Rank)
    (procs procs' : gmap Rank Proc) :
  NoDup rs ->
  advance_all ans rs procs = Some procs' ->
  forall r,
    (r ∉ rs -> procs' !! r = procs !! r) /\
    (r ∈ rs -> exists p p', procs !! r = Some p /\ advance ans p = Some p' /\
                            procs' !! r = Some p').
Proof.
  revert procs. induction rs as [|a rs IH]; intros procs Hnd Hadv r.
  - simpl in Hadv. injection Hadv as <-. split; [done|].
    intros Hin. by apply elem_of_nil in Hin.
  - simpl in Hadv.
    destruct (procs !! a) as [p|] eqn:Hp; [|done]. simpl in Hadv.
    destruct (advance ans p) as [p'|] eqn:Hp'; [|done]. simpl in Hadv.
    apply NoDup_cons in Hnd as [Ha Hnd].
    destruct (IH _ Hnd Hadv r) as [IH1 IH2].
    destruct (decide (r = a)) as [->|Hne].
    + split; [intros Hn; exfalso; apply Hn; left|].
      intros _. exists p, p'. split; [done|]. split; [done|].
      rewrite (IH1 Ha). apply lookup_insert_eq.
    + split.
      * intros Hn. rewrite IH1; [by apply lookup_insert_ne|].
        intros Hin. apply Hn. by right.
      * intros Hin. apply elem_of_cons in Hin as [?|Hin]; [done|].
        destruct (IH2 Hin) as (q & q' & Hq & Hq' & Hq'').
        rewrite lookup_insert_ne in Hq by done. eauto.
Qed.

Lemma ans_local_no_bcast : no_bcast (float := float) ans_local.
Proof. done. Qed.

Lemma ans_allgather_no_bcast c g : no_bcast (ans_allgather (float := float) c g).
Proof. done. Qed.

Lemma ans_allreduce_no_bcast c ds : no_bcast (ans_allreduce c ds).
Proof. done. Qed.

Lemma ans_send_no_bcast c t : no_bcast (ans_send (float := float) c t).
Proof. done. Qed.

Lemma ans_recv_no_bcast c f n ds : no_bcast (ans_recv (float := float) c f n ds).
Proof. done. Qed.

Lemma advance_all_view (ans : Answer) (rs : list Rank)
    (procs procs' : gmap Rank Proc) r :
  NoDup rs -> advance_all ans rs procs = Some procs' ->
  untouched_or_advanced ans procs procs' r.
Proof.
  intros Hnd Hadv. destruct (advance_all_spec _ _ _ _ Hnd Hadv r) as [H1 H2].
  destruct (decide (r ∈ rs)); [right; auto | left; auto].
Qed.

Lemma fire_sizes W a W' :
  fire W a = Some W' -> w_tp W' = w_tp W /\ w_dp W' = w_dp W.
Proof.
  unfold fire. intros Hf. apply fmap_Some in Hf as (procs' & _ & ->). done.
Qed.

Lemma fire_fired W a W' : fire W a = Some W' -> Fired W W'.
Proof.
  unfold fire. intros Hf. apply fmap_Some in Hf as (procs' & Hf & ->).
  destruct a as [r0|c|c|c root|c from_rank to_rank]; simpl.
  - apply fired_quiet. intros r. exists ans_local. split; [done|].
    eapply advance_all_view; [|exact Hf]. apply NoDup_singleton.
  - apply bind_Some in Hf as (shards & _ & Hf).
    apply fired_quiet. intros r. eexists. split; [apply ans_allgather_no_bcast|].
    eapply advance_all_view; [|exact Hf]. apply members_NoDup.
  - apply bind_Some in Hf as (datas & _ & Hf).
    apply fired_quiet. intros r. eexists. split; [apply ans_allreduce_no_bcast|].
    eapply advance_all_view; [|exact Hf]. apply members_NoDup.
  - apply bind_Some in Hf as (R & HR & Hf).
    apply bind_Some in Hf as (v & Hv & Hf).
    apply bind_Some in Hv as (pR & HpR & Hv).
    eapply fired_bcast; eauto.
    intros r. simpl. apply advance_all_spec; [apply members_NoDup | done].
  - apply bind_Some in Hf as (s & Hs & Hf).
    apply bind_Some in Hf as (r1 & Hr1 & Hf).
    apply bind_Some in Hf as (msg & Hmsg & Hf).
    case_decide as Hne; [done|].
    apply bind_Some in Hf as (procs1 & Hf1 & Hf2).
    apply fired_quiet. intros r. simpl.
    pose proof (advance_all_spec _ _ _ _ (NoDup_singleton s) Hf1 r) as [Hs1 Hs2].
    pose proof (advance_all_spec _ _ _ _ (NoDup_singleton r1) Hf2 r) as [Hr2 Hr3].
    destruct (decide (r = s)) as [->|Hrs].
    + exists (ans_send c to_rank). split; [apply ans_send_no_bcast|].
      right. destruct Hs2 as (p & p' & ? & ? & ?); [apply list_elem_of_singleton; done|].
      exists p, p'. split; [done|]. split; [done|].
      rewrite Hr2; [done|]. rewrite list_elem_of_singleton. done.
    + destruct (decide (r = r1)) as [->|Hrr].
      * eexists. split; [apply ans_recv_no_bcast|].
        right. destruct Hr3 as (p & p' & Hp & ? & ?); [apply list_elem_of_singleton; done|].
        exists p, p'. rewrite Hs1 in Hp; [done|].
        rewrite list_elem_of_singleton. done.
      * exists ans_local. split; [done|]. left.
        rewrite Hr2, Hs1; [done| |]; rewrite list_elem_of_singleton; done.
Qed.

(** The contracts of the two collectives used on parameters and logits:
    every member of the group is handed the concatenation of the members'
    shards by ascending in-group rank, respectively the element-wise mean
    of the members' buffers. *)
Lemma allgather_delivers_concat (W W' : World) c r :
  fire W (AAllgather c) = Some W' ->
  r ∈ members (w_tp W) (w_dp W) c ->
  exists shards p st shard k,
    contributions (contrib_allgather c) (members (w_tp W) (w_dp W) c)
      (w_procs W) = Some shards /\
    w_procs W !! r = Some p /\
    p_prog p = Vis st (EAllgather shard c) k /\
    w_procs W' !! r
      = Some (mkProc (p_log p ++ [(st, EAllgather shard c)])
                (k (concat shards))).
Proof.
  unfold fire. intros Hf Hr.
  apply fmap_Some in Hf as (procs' & Hf & ->).
  apply bind_Some in Hf as (shards & Hc & Hadv).
  destruct (advance_all_spec _ _ _ _ (members_NoDup _ _ _) Hadv r) as [_ Hin].
  destruct (Hin Hr) as (p & p' & Hp & Hp' & Hl).
  apply advance_inv in Hp' as (st & e & k & x & Hprog & Hans & ->).
  destruct e; simpl in Hans; try done.
  case_decide as Hd; [|done]. subst. injection Hans as <-.
  exists shards, p, st, shard, k. done.
Qed.

Lemma allreduce_delivers_mean (W W' : World) c r :
  fire W (AAllreduce c) = Some W' ->
  r ∈ members (w_tp W) (w_dp W) c ->
  exists datas p st data size k,
    contributions (contrib_allreduce c) (members (w_tp W) (w_dp W) c)
      (w_procs W) = Some datas /\
    w_procs W !! r = Some p /\
    p_prog p = Vis st (EAllreduce_mean data c size) k /\
    w_procs W' !! r
      = Some (mkProc (p_log p ++ [(st, EAllreduce_mean data c size)])
                (k (mean_of datas size))).
Proof.
  unfold fire. intros Hf Hr.
  apply fmap_Some in Hf as (procs' & Hf & ->).
  apply bind_Some in Hf as (datas & Hc & Hadv).
  destruct (advance_all_spec _ _ _ _ (members_NoDup _ _ _) Hadv r) as [_ Hin].
  destruct (Hin Hr) as (p & p' & Hp & Hp' & Hl).
  apply advance_inv in Hp' as (st & e & k & x & Hprog & Hans & ->).
  destruct e; simpl in Hans; try done.
  case_decide as Hd; [|done]. subst. injection Hans as <-.
  exists datas, p, st, data, size, k. done.
Qed.

Lemma computed_loss_snoc (log : Trace float) en :
  computed_loss (log ++ [en]) = latest_loss (computed_loss log) en.
Proof.
  unfold computed_loss, latest_loss. rewrite omap_app. simpl.
  destruct (loss_of_call en) as [v|].
  - apply last_snoc.
  - by rewrite app_nil_r.
Qed.

Lemma root_ok_of_tail c log prog :
  computes_then_bcasts c prog (computed_loss log) -> root_ok c (mkProc log prog).
Proof. unfold root_ok. simpl. destruct prog as [[v s]| | |]; simpl; done. Qed.

Lemma other_ok_of_await procs t d log prog :
  awaits_bcast (PPComm t d) prog -> other_ok procs t d (mkProc log prog).
Proof. unfold other_ok. simpl. destruct prog as [[v s]| | |]; simpl; done. Qed.

Lemma advance_root_quiet c ans (p p' : Proc) :
  no_bcast ans -> advance ans p = Some p' -> root_ok c p -> root_ok c p'.
Proof.
  intros Hnb Hadv Hok.
  apply advance_inv in Hadv as (st & e & k & x & Hprog & Hans & ->).
  unfold root_ok in Hok. rewrite Hprog in Hok.
  apply root_ok_of_tail. rewrite computed_loss_snoc.
  destruct e; simpl in Hok; try apply Hok.
  by rewrite Hnb in Hans.
Qed.

Lemma advance_other_quiet procs t d ans (p p' : Proc) :
  no_bcast ans -> advance ans p = Some p' ->
  awaits_bcast (PPComm t d) (p_prog p) -> other_ok procs t d p'.
Proof.
  intros Hnb Hadv Hok.
  apply advance_inv in Hadv as (st & e & k & x & Hprog & Hans & ->).
  rewrite Hprog in Hok.
  apply other_ok_of_await.
  destruct e; simpl in Hok; try apply Hok.
  by rewrite Hnb in Hans.
Qed.

Lemma other_ok_awaits procs t d (p p' : Proc) ans :
  advance ans p = Some p' -> other_ok procs t d p ->
  awaits_bcast (PPComm t d) (p_prog p).
Proof.
  intros Hadv Hok.
  apply advance_inv in Hadv as (st & e & k & x & Hprog & _ & _).
  unfold other_ok in Hok. by rewrite Hprog in Hok |- *.
Qed.

Lemma ret_stays W W' r (p : Proc) x :
  Fired W W' -> w_procs W !! r = Some p -> p_prog p = Ret x ->
  w_procs W' !! r = Some p.
Proof.
  intros HF Hl Hret.
  assert (Hno : forall ans p', advance ans p = Some p' -> False).
  { intros ans p' Hadv.
    apply advance_inv in Hadv as (? & ? & ? & ? & Hprog & _). congruence. }
  destruct HF as [Hq | c root R pR v _ _ _ Hb].
  - destruct (Hq r) as (ans & _ & [-> | (q & q' & Hq1 & Hq2 & _)]); [done|].
    rewrite Hl in Hq1. injection Hq1 as <-. by destruct (Hno _ _ Hq2).
  - destruct (Hb r) as [Hout Hin].
    destruct (decide (r ∈ members (w_tp W) (w_dp W) c)) as [Hm|Hm].
    + destruct (Hin Hm) as (q & q' & Hq1 & Hq2 & _).
      rewrite Hl in Hq1. injection Hq1 as <-. by destruct (Hno _ _ Hq2).
    + by rewrite Hout.
Qed.

Lemma other_ok_fired W W' t d (p : Proc) :
  Fired W W' -> other_ok (w_procs W) t d p -> other_ok (w_procs W') t d p.
Proof.
  intros HF. unfold other_ok.
  destruct (p_prog p) as [[v s]| | |]; try done.
  intros (pR & sR & Hl & Hret & Hloss).
  exists pR, sR. split; [|done]. eapply ret_stays; eauto.
Qed.

Lemma ans_bcast_inv c root v (e : Ext float) (x : Reply e) :
  ans_bcast c root v e = Some x -> exists buf, e = EBcast buf root c.
Proof.
  destruct e; simpl; try done.
  case_decide as Hd; [|done]. destruct Hd as [-> ->]. eauto.
Qed.

(** In a firing of the broadcast of a pipeline group, the root ends up
    having returned the loss it computed, and that is the value handed to
    every member. *)
Lemma bcast_root W W' t d root R (pR : Proc) v :
  group_ok W ->
  member (w_tp W) (w_dp W) (PPComm t d) root = Some R ->
  w_procs W !! R = Some pR ->
  contrib_bcast (PPComm t d) root pR = Some v ->
  (exists q', advance (ans_bcast (PPComm t d) root v) pR = Some q' /\
              w_procs W' !! R = Some q') ->
  root = 2 ->
  exists pR' sR, w_procs W' !! (t, d, 2) = Some pR' /\
                 p_prog pR' = Ret (v, sR) /\
                 computed_loss (p_log pR') = Some v.
Proof.
  intros Hok HR HpR Hv (q' & Hadv & Hq') ->.
  apply member_pp in HR as [-> _].
  destruct (Hok _ _ _ _ HpR) as [Hroot _]. specialize (Hroot eq_refl).
  apply advance_inv in Hadv as (st & e & k & x & Hprog & Hans & ->).
  unfold root_ok in Hroot. rewrite Hprog in Hroot.
  unfold contrib_bcast, head_call in Hv. rewrite Hprog in Hv.
  destruct e; simpl in Hans, Hv, Hroot; try done.
  case_decide as Hd; [|done]. injection Hans as <-.
  destruct Hroot as (Hbuf & _ & _ & _ & Hk).
  destruct (Hk v) as [s Hs].
  eexists _, s. split; [exact Hq'|]. simpl. split; [done|].
  rewrite computed_loss_snoc. unfold latest_loss. simpl. congruence.
Qed.

Lemma group_ok_fired W W' : Fired W W' -> group_ok W -> group_ok W'.
Proof.
  intros HF Hok t d p proc' Hl'.
  destruct HF as [Hq | c root R pR v HR HpR Hv Hb] eqn:HFeq.
  - clear HFeq.
    destruct (Hq (t, d, p)) as (ans & Hnb & [Hsame | (q & q' & Hq1 & Hq2 & Hq3)]).
    + rewrite Hsame in Hl'. destruct (Hok _ _ _ _ Hl') as [H1 H2].
      split; [done|]. intros Hp. eapply other_ok_fired; [|by apply H2].
      by apply fired_quiet.
    + rewrite Hl' in Hq3. injection Hq3 as <-.
      destruct (Hok _ _ _ _ Hq1) as [H1 H2]. split.
      * intros Hp. eapply advance_root_quiet; eauto.
      * intros Hp. eapply advance_other_quiet; eauto.
        eapply other_ok_awaits; eauto.
  - clear HFeq.
    destruct (Hb (t, d, p)) as [Hout Hin].
    destruct (decide ((t, d, p) ∈ members (w_tp W) (w_dp W) c)) as [Hm|Hm].
    + destruct (Hin Hm) as (q & q' & Hq1 & Hq2 & Hq3).
      rewrite Hl' in Hq3. injection Hq3 as <-.
      destruct (Hok _ _ _ _ Hq1) as [H1 H2].
      pose proof Hq2 as Hadv.
      apply advance_inv in Hadv as (st & e & k & x & Hprog & Hans & Hq').
      destruct (ans_bcast_inv _ _ _ _ _ Hans) as [buf ->].
      assert (Hroot : root = 2 -> c = PPComm t d ->
                exists pR' sR, w_procs W' !! (t, d, 2) = Some pR' /\
                  p_prog pR' = Ret (v, sR) /\
                  computed_loss (p_log pR') = Some v).
      { intros -> ->. eapply bcast_root; eauto.
        destruct (Hb R) as [_ HinR].
        destruct (HinR (member_elem _ _ _ _ _ HR))
          as (q0 & q0' & Hq01 & Hq02 & Hq03).
        rewrite HpR in Hq01. injection Hq01 as <-. eauto. }
      simpl in Hans. case_decide; [|done]. injection Hans as <-.
      split.
      * intros ->. specialize (H1 eq_refl).
        unfold root_ok in H1. rewrite Hprog in H1. simpl in H1.
        destruct H1 as (_ & _ & Hr & Hc & _).
        destruct (Hroot Hr Hc) as (pR' & sR & HlR & HretR & HlossR).
        rewrite Hl' in HlR. injection HlR as <-.
        unfold root_ok. rewrite HretR. done.
      * intros Hp. specialize (H2 Hp).
        unfold other_ok in H2. rewrite Hprog in H2. simpl in H2.
        destruct H2 as (Hr & Hc & Hk).
        destruct (Hroot Hr Hc) as (pR' & sR & HlR & HretR & HlossR).
        destruct (Hk v) as [s Hs].
        unfold other_ok. rewrite Hq'. simpl. rewrite Hs.
        exists pR', sR. done.
    + rewrite Hout in Hl' by done. destruct (Hok _ _ _ _ Hl') as [H1 H2].
      split; [done|]. intros Hp. eapply other_ok_fired; [|by apply H2].
      eapply fired_bcast; eauto.
Qed.

Lemma forward_awaits Xs Ys fb dist st :
  pp_rank dist = 0 \/ pp_rank dist = 1 ->
  awaits_bcast (pp_comm dist) (Model_forward_3d Xs Ys fb dist st).
Proof.
  unfold Model_forward_3d.
  intros [Hp|Hp]; rewrite Hp; simpl; intros; repeat split; eauto.
Qed.

Lemma forward_root Xs Ys fb dist st :
  pp_rank dist = 2 ->
  computes_then_bcasts (pp_comm dist) (Model_forward_3d Xs Ys fb dist st) None.
Proof.
  unfold Model_forward_3d.
  intros Hp; rewrite Hp; simpl; intros; repeat split; eauto.
Qed.

Lemma init_world_lookup tp dp inputs r :
  w_procs (init_world tp dp inputs) !! r = start tp dp r <$> inputs !! r.
Proof.
  unfold init_world. simpl. rewrite map_lookup_imap.
  by destruct (inputs !! r).
Qed.

Lemma group_ok_init tp dp inputs : group_ok (init_world tp dp inputs).
Proof.
  intros t d p proc. rewrite init_world_lookup.
  intros Hl. apply fmap_Some in Hl as (i & _ & ->).
  split; intros Hp.
  - apply root_ok_of_tail.
    apply (forward_root _ _ _ (topology tp dp (in_world_rank i) (t, d, p))).
    done.
  - apply other_ok_of_await.
    apply (forward_awaits _ _ _ (topology tp dp (in_world_rank i) (t, d, p))).
    done.
Qed.

Lemma group_ok_steps W W' : rtc step W W' -> group_ok W -> group_ok W'.
Proof.
  induction 1 as [|W1 W2 W3 [a Ha] _ IH]; [done|].
  intros Hok. apply IH. eapply group_ok_fired; [|done].
  by eapply fire_fired.
Qed.

(** The scheduler only takes steps of the world. *)
Lemma first_fire_step W cands W' : first_fire W cands = Some W' -> step W W'.
Proof.
  induction cands as [|[r p] cands IH]; [done|]. simpl.
  destruct (action_of r p) as [a|] eqn:Ha; simpl; [|done].
  destruct (fire W a) as [W1|] eqn:Hf; [|done].
  intros [= <-]. by exists a.
Qed.

Lemma run_world_steps fuel W : rtc step W (run_world fuel W).
Proof.
  revert W. induction fuel as [|n IH]; intros W; simpl; [done|].
  destruct (sched W) as [W'|] eqn:Hs; [|done].
  eapply rtc_l; [|apply IH]. by eapply first_fire_step.
Qed.

Lemma fired_view (W W' : World) r :
  Fired W W' ->
  w_procs W' !! r = w_procs W !! r \/
  exists p p' ans, w_procs W !! r = Some p /\ advance ans p = Some p' /\
                   w_procs W' !! r = Some p'.
Proof.
  intros [Hq | c root R pR v _ _ _ Hb].
  - destruct (Hq r) as (ans & _ & [?|(p & p' & ?)]); [by left|].
    right. by exists p, p', ans.
  - destruct (Hb r) as [Hout Hin].
    destruct (decide (r ∈ members (w_tp W) (w_dp W) c)) as [Hm|Hm].
    + destruct (Hin Hm) as (p & p' & ?). right. by exists p, p', (ans_bcast c root v).
    + left. by apply Hout.
Qed.

Lemma shape_ok_fired tp dp inputs (W W' : World) :
  Fired W W' -> shape_ok tp dp inputs W -> shape_ok tp dp inputs W'.
Proof.
  intros HF Hok r proc' Hl'.
  destruct (fired_view _ _ r HF) as [Hsame | (p & p' & ans & Hp & Hadv & Hp')].
  - rewrite Hsame in Hl'. by apply Hok.
  - rewrite Hl' in Hp'. injection Hp' as <-.
    destruct (Hok _ _ Hp) as (i & Hi & Hal & _).
    exists i. split; [done|].
    apply advance_inv in Hadv as (st & e & k & x & Hprog & _ & ->).
    rewrite Hprog in Hal. simpl in Hal. destruct Hal as [Hnode Hrest].
    simpl. split; [apply Hrest|]. rewrite last_snoc.
    destruct r as [[t d] p0]. apply Hnode.
Qed.

Lemma store_holds (h : Heap float) p data : holds (store h p data) p data.
Proof.
  unfold holds, store. rewrite lookup_insert_eq. simpl.
  by rewrite take_app_length.
Qed.

Ltac shape_tac :=
  repeat first
    [ exact I
    | reflexivity
    | apply store_holds
    | progress unfold kernel_on_gathered
    | progress simpl
    | progress intros
    | match goal with
      | |- _ /\ _ => split
      | |- exists _, _ => eexists
      | |- _ \/ _ => first [left; split; reflexivity | right; split; reflexivity]
      end ].

Lemma forward_shape tp dp t d p i :
  always (forward_node tp dp (t, d, p) i)
    (Model_forward_3d (in_Xs i) (in_Ys i) (in_flat_buffer i)
       (topology tp dp (in_world_rank i) (t, d, p)) (in_state i)) /\
  after_linear (st_model (in_state i)) None
    (Model_forward_3d (in_Xs i) (in_Ys i) (in_flat_buffer i)
       (topology tp dp (in_world_rank i) (t, d, p)) (in_state i)).
Proof.
  unfold Model_forward_3d, forward_node, kernel_on_gathered. simpl.
  destruct (decide (p = 0)) as [->|H0];
    [|destruct (decide (p = 1)) as [->|H1];
      [|destruct (decide (p = 2)) as [->|H2]]];
    simpl; shape_tac.
Qed.

Lemma shape_ok_init tp dp inputs : shape_ok tp dp inputs (init_world tp dp inputs).
Proof.
  intros [[t d] p] proc. rewrite init_world_lookup.
  intros Hl. apply fmap_Some in Hl as (i & Hi & ->).
  exists i. split; [done|]. apply forward_shape.
Qed.

Lemma shape_ok_steps tp dp inputs (W W' : World) :
  rtc step W W' -> shape_ok tp dp inputs W -> shape_ok tp dp inputs W'.
Proof.
  induction 1 as [|W1 W2 W3 [a Ha] _ IH]; [done|].
  intros Hok. apply IH. eapply shape_ok_fired; [|done].
  by eapply fire_fired.
Qed.

Lemma steps_sizes (W W' : World) :
  rtc step W W' -> w_tp W' = w_tp W /\ w_dp W' = w_dp W.
Proof.
  induction 1 as [|W1 W2 W3 [a Ha] _ [IH1 IH2]]; [done|].
  apply fire_sizes in Ha as [Ha1 Ha2]. split; congruence.
Qed.

End WorldFacts.

(** * Where the data of a kernel call comes from *)

Section ProvenanceFacts.

Context {float : Type} `{Kernels float}.

Local Abbreviation Proc := (@Proc float).
Local Abbreviation World := (@World float).
Local Abbreviation Answer := (@Answer float).
Local Abbreviation Input := (@Input float).

Lemma Forall2_impl_elem {A B} (P Q : A -> B -> Prop) (l : list A) (k : list B) :
  Forall2 P l k -> (forall x y, x ∈ l -> P x y -> Q x y) -> Forall2 Q l k.
Proof.
  induction 1 as [|x y l k Hxy _ IH]; intros Himp; constructor.
  - apply Himp; [by left | done].
  - apply IH. intros x' y' Hin. apply Himp. by right.
Qed.

(** What a firing does to a rank, with the answer it was handed. *)
Lemma fire_served (W W' : World) a r :
  fire W a = Some W' ->
  w_procs W' !! r = w_procs W !! r \/
  exists (p p' : Proc) (ans : Answer),
    w_procs W !! r = Some p /\ advance ans p = Some p' /\
    w_procs W' !! r = Some p' /\
    match a with
    | ALocal _ => ans = ans_local
    | AAllgather c =>
        r ∈ members (w_tp W) (w_dp W) c /\
        exists shards,
          contributions (contrib_allgather c) (members (w_tp W) (w_dp W) c)
            (w_procs W) = Some shards /\
          ans = ans_allgather c (concat shards)
    | AAllreduce c =>
        r ∈ members (w_tp W) (w_dp W) c /\
        exists datas,
          contributions (contrib_allreduce c) (members (w_tp W) (w_dp W) c)
            (w_procs W) = Some datas /\
          ans = ans_allreduce c datas
    | ABcast c root => exists v, ans = ans_bcast c root v
    | ASendRecv c from_rank to_rank =>
        ans = ans_send c to_rank \/
        exists n data, ans = ans_recv c from_rank n data
    end.
Proof.
  unfold fire. intros Hf. apply fmap_Some in Hf as (procs' & Hf & ->). simpl.
  destruct a as [r0|c|c|c root|c from_rank to_rank].
  - destruct (advance_all_spec _ _ _ _ (NoDup_singleton r0) Hf r) as [H1 H2].
    destruct (decide (r ∈ [r0])) as [Hin|Hin]; [|left; auto].
    destruct (H2 Hin) as (p & p' & ? & ? & ?). right. by exists p, p', ans_local.
  - apply bind_Some in Hf as (shards & Hc & Hf).
    destruct (advance_all_spec _ _ _ _ (members_NoDup _ _ _) Hf r) as [H1 H2].
    destruct (decide (r ∈ members (w_tp W) (w_dp W) c)) as [Hin|Hin];
      [|left; auto].
    destruct (H2 Hin) as (p & p' & ? & ? & ?). right.
    exists p, p', (ans_allgather c (concat shards)). eauto 10.
  - apply bind_Some in Hf as (datas & Hc & Hf).
    destruct (advance_all_spec _ _ _ _ (members_NoDup _ _ _) Hf r) as [H1 H2].
    destruct (decide (r ∈ members (w_tp W) (w_dp W) c)) as [Hin|Hin];
      [|left; auto].
    destruct (H2 Hin) as (p & p' & ? & ? & ?). right.
    exists p, p', (ans_allreduce c datas). eauto 10.
  - apply bind_Some in Hf as (R & HR & Hf).
    apply bind_Some in Hf as (v & Hv & Hf).
    destruct (advance_all_spec _ _ _ _ (members_NoDup _ _ _) Hf r) as [H1 H2].
    destruct (decide (r ∈ members (w_tp W) (w_dp W) c)) as [Hin|Hin];
      [|left; auto].
    destruct (H2 Hin) as (p & p' & ? & ? & ?). right.
    exists p, p', (ans_bcast c root v). eauto 10.
  - apply bind_Some in Hf as (s & Hs & Hf).
    apply bind_Some in Hf as (r1 & Hr1 & Hf).
    apply bind_Some in Hf as (msg & Hmsg & Hf).
    case_decide as Hne; [done|].
    apply bind_Some in Hf as (procs1 & Hf1 & Hf2).
    pose proof (advance_all_spec _ _ _ _ (NoDup_singleton s) Hf1 r) as [Hs1 Hs2].
    pose proof (advance_all_spec _ _ _ _ (NoDup_singleton r1) Hf2 r) as [Hr2 Hr3].
    destruct (decide (r = s)) as [->|Hrs].
    + right. destruct Hs2 as (p & p' & ? & ? & ?);
        [apply list_elem_of_singleton; done|].
      exists p, p', (ans_send c to_rank). split; [done|]. split; [done|].
      split; [|by left]. rewrite Hr2; [done|].
      rewrite list_elem_of_singleton. done.
    + destruct (decide (r = r1)) as [->|Hrr].
      * right. destruct Hr3 as (p & p' & Hp & ? & ?);
          [apply list_elem_of_singleton; done|].
        exists p, p', (ans_recv c from_rank (snd msg) (fst msg)).
        rewrite Hs1 in Hp; [|rewrite list_elem_of_singleton; done].
        split; [done|]. split; [done|]. split; [done|]. right. eauto.
      * left. rewrite Hr2, Hs1; [done| |]; rewrite list_elem_of_singleton; done.
Qed.

Lemma log_grows (W W' : World) a r (proc : Proc) :
  fire W a = Some W' -> w_procs W !! r = Some proc ->
  exists proc', w_procs W' !! r = Some proc' /\
                forall x, x ∈ p_log proc -> x ∈ p_log proc'.
Proof.
  intros Hf Hl.
  destruct (fire_served _ _ _ r Hf) as [Hsame|(p & p' & ans & Hp & Hadv & Hp' & _)].
  - exists proc. split; [congruence | done].
  - rewrite Hl in Hp. injection Hp as <-.
    apply advance_inv in Hadv as (st & e & k & x & _ & _ & ->).
    eexists. split; [exact Hp'|]. simpl. intros y Hy.
    apply elem_of_app. by left.
Qed.

Lemma gathered_from_fire (W W' : World) a c shards :
  fire W a = Some W' -> gathered_from W c shards -> gathered_from W' c shards.
Proof.
  intros Hf Hg. unfold gathered_from in *.
  destruct (fire_sizes _ _ _ Hf) as [-> ->].
  eapply Forall2_impl; [exact Hg|]. simpl.
  intros r shard (proc & s & Hl & Hin).
  destruct (log_grows _ _ _ _ _ Hf Hl) as (proc' & Hl' & Hsub). eauto.
Qed.

Lemma reduced_from_fire (W W' : World) a c datas :
  fire W a = Some W' -> reduced_from W c datas -> reduced_from W' c datas.
Proof.
  intros Hf Hg. unfold reduced_from in *.
  destruct (fire_sizes _ _ _ Hf) as [-> ->].
  eapply Forall2_impl; [exact Hg|]. simpl.
  intros r data (proc & s & size & Hl & Hin).
  destruct (log_grows _ _ _ _ _ Hf Hl) as (proc' & Hl' & Hsub). eauto 10.
Qed.

(** After the all-gather of [c] has fired, the logs of its members record
    the shards it concatenated. *)
Lemma gathered_from_allgather (W W' : World) c shards :
  fire W (AAllgather c) = Some W' ->
  contributions (contrib_allgather c) (members (w_tp W) (w_dp W) c)
    (w_procs W) = Some shards ->
  gathered_from W' c shards.
Proof.
  intros Hf Hc. unfold gathered_from.
  destruct (fire_sizes _ _ _ Hf) as [-> ->].
  unfold contributions in Hc. apply mapM_Some in Hc.
  eapply Forall2_impl_elem; [exact Hc|]. simpl.
  intros r shard Hr Hsh.
  destruct (allgather_delivers_concat _ _ _ _ Hf Hr)
    as (shards' & p & st & shard' & k & _ & Hl & Hprog & Hl').
  rewrite Hl in Hsh. simpl in Hsh.
  unfold contrib_allgather, head_call in Hsh. rewrite Hprog in Hsh.
  case_decide; [|done]. injection Hsh as ->.
  eexists _, st. split; [exact Hl'|]. simpl.
  apply elem_of_app. right. by left.
Qed.

Lemma reduced_from_allreduce (W W' : World) c datas :
  fire W (AAllreduce c) = Some W' ->
  contributions (contrib_allreduce c) (members (w_tp W) (w_dp W) c)
    (w_procs W) = Some datas ->
  reduced_from W' c datas.
Proof.
  intros Hf Hc. unfold reduced_from.
  destruct (fire_sizes _ _ _ Hf) as [-> ->].
  unfold contributions in Hc. apply mapM_Some in Hc.
  eapply Forall2_impl_elem; [exact Hc|]. simpl.
  intros r data Hr Hsh.
  destruct (allreduce_delivers_mean _ _ _ _ Hf Hr)
    as (datas' & p & st & data' & size & k & _ & Hl & Hprog & Hl').
  rewrite Hl in Hsh. simpl in Hsh.
  unfold contrib_allreduce, head_call in Hsh. rewrite Hprog in Hsh.
  case_decide; [|done]. injection Hsh as ->.
  eexists _, st, size. split; [exact Hl'|]. simpl.
  apply elem_of_app. right. by left.
Qed.


Lemma provenance_ok_fire tp dp inputs (W W' : World) a :
  w_tp W = tp -> w_dp W = dp ->
  shape_ok tp dp inputs W -> provenance_ok tp dp inputs W ->
  fire W a = Some W' -> provenance_ok tp dp inputs W'.
Proof.
  intros Htp Hdp Hshape Hprov Hf r proc' Hl'.
  destruct (fire_served _ _ _ r Hf)
    as [Hsame | (p & q & ans & Hp & Hadv & Hq & Hserved)].
  - rewrite Hsame in Hl'.
    destruct (Hprov _ _ Hl') as (i & Hi & Hal & Hpre & Hg & Hm & Hs).
    exists i. split; [done|]. split; [done|]. split; [done|].
    destruct r as [[t d] p0]. split; [|split].
    + intros s_g shard c Hlast.
      destruct (Hg _ _ _ Hlast) as (shards & s_k & call & k' & ? & ? & ? & ?).
      exists shards, s_k, call, k'. eauto using gathered_from_fire.
    + intros s3 logits c size Hlast.
      destruct (Hm _ _ _ _ Hlast)
        as (datas & s4 & k1 & s5 & k2 & ? & ? & ? & ? & ? & ? & ? & ? & ?).
      exists datas, s4, k1, s5, k2. eauto 12 using reduced_from_fire.
    + intros s4 inp out Hlast.
      destruct (Hs _ _ _ Hlast)
        as (pre & s3 & logits & datas & s5 & k2
            & ? & ? & ? & ? & ? & ? & ? & ? & ?).
      exists pre, s3, logits, datas, s5, k2. eauto 12 using reduced_from_fire.
  - rewrite Hl' in Hq. injection Hq as <-.
    destruct (Hprov _ _ Hp) as (i & Hi & Hal & Hpre & Hg & Hm & Hs).
    destruct (Hshape _ _ Hp) as (i' & Hi' & Hshal & _).
    rewrite Hi in Hi'. injection Hi' as <-.
    pose proof Hadv as Hadv0.
    apply advance_inv in Hadv as (st & e & k & x & Hprog & Hans & ->).
    exists i. split; [done|].
    rewrite Hprog in Hal. simpl in Hal. destruct Hal as [Hnode Hrest].
    split; [apply Hrest|]. simpl. rewrite last_snoc.
    split; [apply Hnode|].
    destruct r as [[t d] p0]. split; [|split].
    + intros s_g shard c Hlast. simpl in Hlast. rewrite last_snoc in Hlast.
      injection Hlast as -> ->.
      rewrite Hprog in Hshal. simpl in Hshal.
      destruct Hshal as [(Hgn & _) _]. simpl in Hgn.
      destruct Hgn as [-> Hgn].
      destruct a as [r0|c0|c0|c0 root|c0 fr to]; simpl in Hserved.
      * subst ans. done.
      * destruct Hserved as (Hr & shards & Hc & ->). simpl in Hans.
        case_decide as Hcc; [|done]. subst c0. injection Hans as <-.
        destruct (Hgn (concat shards)) as (s_k & call & k' & Hk & Hkg).
        exists shards, s_k, call, k'. split; [done|].
        split; [by eapply gathered_from_allgather|].
        subst dp. split; [exact Hk | exact Hkg].
      * destruct Hserved as (_ & datas & _ & ->). done.
      * destruct Hserved as (v & ->). done.
      * destruct Hserved as [->|(n & data & ->)]; done.
    + intros s3 logits c size Hlast. simpl in Hlast.
      rewrite last_snoc in Hlast. injection Hlast as -> ->.
      rewrite Hprog in Hshal. simpl in Hshal.
      destruct Hshal as [(_ & Hrn & _) _]. simpl in Hrn.
      destruct Hrn as (-> & -> & -> & Hlog & Hrn).
      destruct a as [r0|c0|c0|c0 root|c0 fr to]; simpl in Hserved.
      * subst ans. done.
      * destruct Hserved as (_ & shards & _ & ->). done.
      * destruct Hserved as (Hr & datas & Hc & ->). simpl in Hans.
        case_decide as Hcc; [|done]. subst c0. injection Hans as <-.
        destruct (Hrn (mean_of datas tp)) as (s4 & k1 & s5 & k2 & Hk & ? & ? & ?).
        exists datas, s4, k1, s5, k2.
        split; [done|]. split; [done|]. split; [done|].
        split; [by eapply reduced_from_allreduce|].
        split; [done|]. split; [exact Hk|]. done.
      * destruct Hserved as (v & ->). done.
      * destruct Hserved as [->|(n & data & ->)]; done.
    + intros s4 inp out Hlast. simpl in Hlast. rewrite last_snoc in Hlast.
      injection Hlast as -> ->.
      rewrite Hprog in Hpre. simpl in Hpre.
      destruct Hpre as (s3 & logits & c & size & Hlast3).
      destruct (Hm _ _ _ _ Hlast3)
        as (datas & s4' & k1 & s5 & k2
            & -> & -> & -> & Hred & Hlog & Hprog1 & Hh4 & Hk1 & Hh5).
      unfold advance in Hadv0. rewrite Hprog1 in Hadv0.
      destruct (ans (EKernel (Ksoftmax (fc_2_out (st_model (in_state i)))
                                (softmax_out (st_model (in_state i))))))
        as [[]|]; [|done].
      injection Hadv0 as Hlogs Hk.
      apply app_inj_tail in Hlogs as [_ Hen]. injection Hen as <- <- <-.
      apply last_Some in Hlast3 as [pre Hpre'].
      exists pre, s3, logits, datas, s5, k2.
      split; [done|]. split; [by rewrite Hpre', <- app_assoc|].
      split; [by eapply reduced_from_fire|].
      split; [done|]. split; [done|]. split; [done|]. split; [done|].
      split; [by rewrite <- Hk|]. done.
Qed.

Lemma forward_preceded Xs Ys fb dist st :
  always preceded_node (Model_forward_3d Xs Ys fb dist st) /\
  preceded None (Model_forward_3d Xs Ys fb dist st).
Proof.
  unfold Model_forward_3d, preceded_node.
  destruct (decide (pp_rank dist = 0)) as [H0|H0];
    [|destruct (decide (pp_rank dist = 1)) as [H1|H1];
      [|destruct (decide (pp_rank dist = 2)) as [H2|H2]]];
    simpl; repeat split; intros; simpl; try exact I; eauto 10.
Qed.

Lemma provenance_ok_init tp dp inputs :
  provenance_ok tp dp inputs (init_world tp dp inputs).
Proof.
  intros [[t d] p] proc. rewrite init_world_lookup.
  intros Hl. apply fmap_Some in Hl as (i & Hi & ->).
  exists i. split; [done|].
  split; [apply forward_preceded|]. split; [apply forward_preceded|].
  split; [|split]; intros ? ? ?; try intros ?; simpl; done.
Qed.

Lemma provenance_ok_rtc tp dp inputs (W0 W : World) :
  rtc step W0 W ->
  w_tp W0 = tp -> w_dp W0 = dp ->
  shape_ok tp dp inputs W0 -> provenance_ok tp dp inputs W0 ->
  shape_ok tp dp inputs W /\ provenance_ok tp dp inputs W.
Proof.
  induction 1 as [|W1 W2 W3 [a Ha] _ IH]; [done|].
  intros Htp Hdp Hsh Hpr.
  destruct (fire_sizes _ _ _ Ha) as [Htp' Hdp'].
  apply IH; [congruence | congruence | |].
  - eapply shape_ok_fired; [by eapply fire_fired | done].
  - eapply provenance_ok_fire; eauto.
Qed.

Lemma provenance_ok_steps tp dp inputs (W : World) :
  rtc step (init_world tp dp inputs) W ->
  shape_ok tp dp inputs W /\ provenance_ok tp dp inputs W.
Proof.
  intros Hsteps.
  apply (provenance_ok_rtc _ _ _ _ _ Hsteps);
    [done | done | apply shape_ok_init | apply provenance_ok_init].
Qed.

End ProvenanceFacts.

(** * The forward protocol of one rank *)

Section ForwardSpec.

Context {float : Type} `{Kernels float}.

(** C4: on every stage, the layer's weight pointer and effective shape are
    back to their values before the call at every call the function issues
    other than the layer's own kernel, and when it returns. *)
Theorem forward_restores_shard (h : Oracle float) Xs Ys fb dist st :
  pp_rank dist = 0 \/ pp_rank dist = 1 \/ pp_rank dist = 2 ->
  exists tr v st',
    run h (Model_forward_3d Xs Ys fb dist) st = (tr, Returned (v, st')) /\
    layer_view (pp_rank dist) (st_model st')
      = layer_view (pp_rank dist) (st_model st) /\
    Forall (fun en =>
              is_layer_kernel (snd en) = false ->
              layer_view (pp_rank dist) (st_model (fst en))
                = layer_view (pp_rank dist) (st_model st)) tr.
Proof.
  unfold run, Model_forward_3d.
  intros [Hp|[Hp|Hp]]; rewrite Hp; simpl;
    (eexists _, _, _; split; [reflexivity|]; split; [reflexivity|]);
    repeat (apply Forall_cons; split; [simpl; first [done | reflexivity]|]);
    by apply Forall_nil.
Qed.


(** For every environment: the layer kernel of each stage is called right
    after the all-gather of the stage's shard over the data-parallel
    communicator; at that call the layer points at the scratch buffer, the
    scratch buffer holds what the all-gather delivered, and the layer's
    effective dimension is the shard's dimension times [dp_size]. *)
Lemma gather_then_kernel_trace (h : Oracle float) Xs Ys fb dist st :
  pp_rank dist = 0 \/ pp_rank dist = 1 \/ pp_rank dist = 2 ->
  exists pre s_g shard s_k call post out,
    run h (Model_forward_3d Xs Ys fb dist) st
      = (pre ++ (s_g, EAllgather shard (dp_comm dist))
               :: (s_k, EKernel call) :: post, out) /\
    Forall (fun en => is_layer_kernel (snd en) = false) pre /\
    shard = load (st_heap s_g) (fst (layer_view (pp_rank dist) (st_model s_g)))
              (layer_numel (pp_rank dist) (st_model s_g)) /\
    layer_view (pp_rank dist) (st_model s_g)
      = layer_view (pp_rank dist) (st_model st) /\
    layer_kernel_of (pp_rank dist) (st_model s_k) call /\
    fst (layer_view (pp_rank dist) (st_model s_k)) = fb /\
    snd (layer_view (pp_rank dist) (st_model s_k))
      = snd (layer_view (pp_rank dist) (st_model st)) * dp_size dist /\
    holds (st_heap s_k) fb (h pre (EAllgather shard (dp_comm dist))).
Proof.
  unfold run, Model_forward_3d.
  intros [Hp|[Hp|Hp]]; rewrite Hp; simpl.
  - eexists [], _, _, _, _, _, _. split; [reflexivity|].
    split; [by apply Forall_nil|].
    repeat split; simpl; auto using store_holds.
  - eexists [_], _, _, _, _, _, _. split; [reflexivity|].
    split; [apply Forall_cons; split; [done | by apply Forall_nil]|].
    repeat split; simpl; auto using store_holds.
  - eexists [_], _, _, _, _, _, _. split; [reflexivity|].
    split; [apply Forall_cons; split; [done | by apply Forall_nil]|].
    repeat split; simpl; auto using store_holds.
Qed.

(** For every environment: the calls of stage 2, in order: receive,
    all-gather, the linear transform into the logits slot, the
    mean-reduction of the logits slot over the tensor-parallel
    communicator, softmax on the reduced logits, the loss against the
    local labels, the broadcast of that loss.  No other stage calls the
    loss kernel. *)
Lemma stage2_trace (h : Oracle float) Xs Ys fb dist st :
  (pp_rank dist = 2 ->
   let m := st_model st in
   exists e_recv s1 e_gather s2 lin s3 logits s4 s5 s6 l out,
     run h (Model_forward_3d Xs Ys fb dist) st
       = ([(st, e_recv); (s1, e_gather);
           (s2, EKernel (KLinear_forward lin (relu_out m) (fc_2_out m)));
           (s3, EAllreduce_mean logits (tp_comm dist) (tp_size dist));
           (s4, EKernel (Ksoftmax (fc_2_out m) (softmax_out m)));
           (s5, EKernel (Kcross_entropy_loss (softmax_out m) Ys));
           (s6, EBcast (Some l) 2 (pp_comm dist))], out) /\
     st_heap s3 = store (st_heap s2) (value (fc_2_out m))
                    (eval_Linear_forward lin (st_heap s2) (relu_out m)
                       (fc_2_out m)) /\
     logits = load (st_heap s3) (value (fc_2_out m))
                (Activation_numel (fc_2_out m)) /\
     st_heap s4 = store (st_heap s3) (value (fc_2_out m))
                    (h [(st, e_recv); (s1, e_gather);
                        (s2, EKernel (KLinear_forward lin (relu_out m)
                                        (fc_2_out m)))]
                       (EAllreduce_mean logits (tp_comm dist) (tp_size dist))) /\
     st_heap s5 = store (st_heap s4) (value (softmax_out m))
                    (eval_softmax (st_heap s4) (fc_2_out m) (softmax_out m)) /\
     l = eval_cross_entropy_loss (st_heap s5) (softmax_out m) Ys) /\
  (pp_rank dist <> 2 ->
   Forall (fun e => is_loss_kernel e = false)
     (calls (fst (run h (Model_forward_3d Xs Ys fb dist) st)))).
Proof.
  unfold run, Model_forward_3d. split.
  - intros Hp. rewrite Hp. simpl.
    eexists _, _, _, _, _, _, _, _, _, _, _, _.
    split; [reflexivity|]. repeat split.
  - intros Hp.
    destruct (decide (pp_rank dist = 0)) as [H0|H0];
      [|destruct (decide (pp_rank dist = 1)) as [H1|H1];
        [|destruct (decide (pp_rank dist = 2)) as [H2|H2]; [done|]]];
      simpl; repeat (apply Forall_cons; split; [done|]); by apply Forall_nil.
Qed.


(** C8: on stages 0 and 1 the variable [loss] is still unassigned when the
    broadcast is issued, the broadcast is the last call, and the value
    returned is the one the broadcast delivers; reading the variable
    without the broadcast would be undefined. *)
Theorem loss_defined_by_bcast (h : Oracle float) Xs Ys fb dist st :
  pp_rank dist = 0 \/ pp_rank dist = 1 ->
  exists pre s st',
    run h (Model_forward_3d Xs Ys fb dist) st
      = (pre ++ [(s, EBcast None 2 (pp_comm dist))],
         Returned (h pre (EBcast None 2 (pp_comm dist)), st')) /\
    Forall (fun e => is_bcast e = false /\ is_loss_kernel e = false)
      (calls pre) /\
    run h (read_float "loss" None) s
      = ([], Undefined (UninitializedRead "loss")).
Proof.
  unfold run, Model_forward_3d.
  intros [Hp|Hp]; rewrite Hp; simpl.
  - eexists [_; _; _], _, _. split; [reflexivity|]. split; [|reflexivity].
    repeat (apply Forall_cons; split; [done|]); by apply Forall_nil.
  - eexists [_; _; _; _; _], _, _. split; [reflexivity|]. split; [|reflexivity].
    repeat (apply Forall_cons; split; [done|]); by apply Forall_nil.
Qed.

End ForwardSpec.

(** * The driver *)

Lemma parse_loop_spec rest i tp dp :
  match parse_loop rest i tp dp with
  | Parsed tp' dp' =>
      (is_Some tp' <-> is_Some tp \/ "--tp" ∈ rest) /\
      (is_Some dp' <-> is_Some dp \/ "--dp" ∈ rest) /\
      last rest <> Some "--tp" /\ last rest <> Some "--dp"
  | PastEnd j =>
      j = (i + length rest)%nat /\
      (last rest = Some "--tp" \/ last rest = Some "--dp")
  end.
Proof.
  revert i tp dp. induction rest as [|arg rest IH]; intros i tp dp; simpl.
  - rewrite !elem_of_nil. intuition discriminate.
  - destruct (String.eqb_spec arg "--tp") as [->|Htp].
    + destruct rest as [|v rest'].
      * split; [cbn; lia|]. by left.
      * specialize (IH (S i) (Some (atoi v)) dp).
        destruct (parse_loop (v :: rest') (S i) (Some (atoi v)) dp)
          as [tp' dp'|j].
        -- destruct IH as (Ht & Hd & Hl1 & Hl2).
           rewrite last_cons_cons. repeat split; auto.
           ++ intros _. right. by left.
           ++ intros _. apply Ht. left. eauto.
           ++ intros Hs. apply Hd in Hs as [?|?]; [by left|].
              right. by right.
           ++ intros [?|Hin]; apply Hd; [by left|].
              apply elem_of_cons in Hin as [?|?]; [done|by right].
        -- destruct IH as [-> Hl]. rewrite last_cons_cons.
           split; [cbn; lia | done].
    + destruct (String.eqb_spec arg "--dp") as [->|Hdp].
      * destruct rest as [|v rest'].
        -- split; [cbn; lia|]. by right.
        -- specialize (IH (S i) tp (Some (atoi v))).
           destruct (parse_loop (v :: rest') (S i) tp (Some (atoi v)))
             as [tp' dp'|j].
           ++ destruct IH as (Ht & Hd & Hl1 & Hl2).
              rewrite last_cons_cons. repeat split; auto.
              ** intros Hs. apply Ht in Hs as [?|?]; [by left|].
                 right. by right.
              ** intros [?|Hin]; apply Ht; [by left|].
                 apply elem_of_cons in Hin as [?|?]; [done|by right].
              ** intros _. right. by left.
              ** intros _. apply Hd. left. eauto.
           ++ destruct IH as [-> Hl]. rewrite last_cons_cons.
              split; [cbn; lia | done].
      * specialize (IH (S i) tp dp).
        assert (Hlast : last (arg :: rest) = last rest \/
                        (rest = [] /\ last (arg :: rest) = Some arg)).
        { destruct rest; [right; done | left; apply last_cons_cons]. }
        destruct (parse_loop rest (S i) tp dp) as [tp' dp'|j].
        -- destruct IH as (Ht & Hd & Hl1 & Hl2).
           rewrite !elem_of_cons.
           repeat split.
           ++ intros Hs. apply Ht in Hs. tauto.
           ++ intros [?|[?|?]]; [apply Ht; tauto | congruence | apply Ht; tauto].
           ++ intros Hs. apply Hd in Hs. tauto.
           ++ intros [?|[?|?]]; [apply Hd; tauto | congruence | apply Hd; tauto].
           ++ destruct Hlast as [->|[_ ->]]; congruence.
           ++ destruct Hlast as [->|[_ ->]]; congruence.
        -- destruct IH as [-> Hl]. split; [cbn; lia|].
           destruct Hlast as [->|[-> _]]; [done|].
           simpl in Hl. destruct Hl; discriminate.
Qed.

(** C9: the padded vocabulary size is [vocab_size + (dp_size - vocab_size
    mod dp_size)]: a multiple of [dp_size], strictly greater than
    [vocab_size]; when [vocab_size] is already a multiple it is
    [vocab_size + dp_size], one block above the smallest multiple that is
    at least [vocab_size]. *)
Theorem vocab_size_padded_spec (vocab_size dp_size : Z) :
  1 <= dp_size ->
  vocab_size_padded vocab_size dp_size
    = vocab_size + (dp_size - Z.rem vocab_size dp_size) /\
  (dp_size | vocab_size_padded vocab_size dp_size) /\
  vocab_size < vocab_size_padded vocab_size dp_size /\
  (Z.rem vocab_size dp_size = 0 ->
   vocab_size_padded vocab_size dp_size = vocab_size + dp_size /\
   exists m, least_multiple_from dp_size vocab_size m /\
             vocab_size_padded vocab_size dp_size = m + dp_size) /\
  vocab_size_padded 27 1 = 28.
Proof.
  intros Hd. unfold vocab_size_padded.
  pose proof (Z.quot_rem' vocab_size dp_size) as Hqr.
  pose proof (Z.rem_bound_abs vocab_size dp_size ltac:(lia)) as Hb.
  split; [done|]. split; [|split; [|split]].
  - exists (Z.quot vocab_size dp_size + 1). lia.
  - lia.
  - intros Hr. split; [lia|].
    exists vocab_size. split; [|lia].
    split; [|split; [lia | intros; lia]].
    exists (Z.quot vocab_size dp_size). lia.
  - reflexivity.
Qed.

Section DriverSpec.

Context {float : Type} `{Kernels float}.

(** C10: the argument loop assigns [tp_size] exactly when "--tp" occurs
    and [dp_size] exactly when "--dp" occurs, unless the last argument is a
    flag, in which case [argv[argc]] is handed to [atoi]; [main] then
    reads [tp_size] or [dp_size] uninitialised when its flag is absent.
    So parsing ends with both variables set exactly when both flags occur
    and the last argument is not a flag. *)
Theorem parse_args_total_iff (argv : list string) :
  ((exists tp dp, parse_args argv = Parsed (Some tp) (Some dp))
     <-> both_flags_with_values argv) /\
  (parse_args argv = PastEnd (length argv)
     <-> last argv = Some "--tp" \/ last argv = Some "--dp") /\
  (forall tp dp, parse_args argv = Parsed tp dp ->
     (tp = None <-> "--tp" ∉ argv) /\ (dp = None <-> "--dp" ∉ argv)) /\
  (forall (h : Oracle float) gbs seq_len vocab emb st0,
     (last argv = Some "--tp" \/ last argv = Some "--dp" ->
      run h (main_body gbs seq_len vocab emb argv) st0
        = ([], Undefined (ReadPastArgv (length argv)))) /\
     (forall dp, parse_args argv = Parsed None dp ->
      run h (main_body gbs seq_len vocab emb argv) st0
        = ([(st0, Esrand 42); (st0, EMPI_Init)],
           Undefined (UninitializedRead "tp_size"))) /\
     (forall tp, parse_args argv = Parsed (Some tp) None ->
      run h (main_body gbs seq_len vocab emb argv) st0
        = ([(st0, Esrand 42); (st0, EMPI_Init)],
           Undefined (UninitializedRead "dp_size")))).
Proof.
  pose proof (parse_loop_spec argv 0 None None) as Hspec.
  fold (parse_args argv) in Hspec.
  assert (HSome : forall P, (is_Some (@None Z) \/ P) <-> P).
  { intros P. split; [intros [[? ?]|?]; [discriminate|done] | auto]. }
  split; [split|split; [split|split]].
  - intros (tp & dp & Hp). rewrite Hp in Hspec.
    destruct Hspec as (Ht & Hd & Hl1 & Hl2).
    rewrite HSome in Ht, Hd.
    split; [apply Ht; eauto|]. split; [apply Hd; eauto|]. done.
  - intros (Ht & Hd & Hl1 & Hl2).
    destruct (parse_args argv) as [tp dp|j].
    + destruct Hspec as (Ht' & Hd' & _). rewrite HSome in Ht', Hd'.
      apply Ht' in Ht as [tpv ->]. apply Hd' in Hd as [dpv ->]. eauto.
    + destruct Hspec as [_ [?|?]]; done.
  - intros Hp. rewrite Hp in Hspec. tauto.
  - intros Hl. destruct (parse_args argv) as [tp dp|j].
    + destruct Hspec as (_ & _ & Hl1 & Hl2). tauto.
    + destruct Hspec as [-> _]. done.
  - intros tp dp Hp. rewrite Hp in Hspec.
    destruct Hspec as (Ht & Hd & _). rewrite HSome in Ht, Hd.
    split; split.
    + intros -> Hin. apply Ht in Hin as [? ?]. discriminate.
    + intros Hn. destruct tp as [x|]; [|done]. exfalso. apply Hn, Ht. eauto.
    + intros -> Hin. apply Hd in Hin as [? ?]. discriminate.
    + intros Hn. destruct dp as [x|]; [|done]. exfalso. apply Hn, Hd. eauto.
  - intros h gbs seq_len vocab emb st0. split; [|split].
    + intros Hl. unfold run, main_body.
      destruct (parse_args argv) as [tp dp|j].
      * destruct Hspec as (_ & _ & Hl1 & Hl2). tauto.
      * destruct Hspec as [-> _]. reflexivity.
    + intros dp Hp. unfold run, main_body. rewrite Hp. reflexivity.
    + intros tp Hp. unfold run, main_body. rewrite Hp. reflexivity.
Qed.

(** C2 (as amended): when the global batch size is not a multiple of the
    data-parallel size, the driver reports the error, shuts the runtime
    down and exits with status 1 without having issued any collective or
    point-to-point call; the topology (and with it the communicator
    groups) has been created before, since the check reads [dp_size] from
    the topology record. *)
Theorem batch_check_precedes_data_communication (h : Oracle float)
    gbs seq_len vocab emb argv st0 tp dp :
  parse_args argv = Parsed (Some tp) (Some dp) ->
  let dist : Dist :=
    h [(st0, Esrand 42); (st0, EMPI_Init)] (EDist_create tp dp 3) in
  dp_size dist <> 0 ->
  ~ (dp_size dist | gbs) ->
  run h (main_body gbs seq_len vocab emb argv) st0
    = ([(st0, Esrand 42); (st0, EMPI_Init); (st0, EDist_create tp dp 3);
        (st0, Erank0_printf (world_rank dist)
                "Global batch size must be divisible by world size!\n" []);
        (st0, EMPI_Finalize)], Exited 1) /\
  Forall (fun e => is_collective e = false /\ is_point_to_point e = false)
    (calls (fst (run h (main_body gbs seq_len vocab emb argv) st0))).
Proof.
  intros Hp dist Hd Hn.
  assert (Hrem : Z.rem gbs (dp_size dist) <> 0).
  { intros Hr. apply Hn. by apply Z.rem_divide. }
  assert (Hrun : run h (main_body gbs seq_len vocab emb argv) st0
    = ([(st0, Esrand 42); (st0, EMPI_Init); (st0, EDist_create tp dp 3);
        (st0, Erank0_printf (world_rank dist)
                "Global batch size must be divisible by world size!\n" []);
        (st0, EMPI_Finalize)], Exited 1)).
  { unfold run, main_body. rewrite Hp. simpl. fold dist.
    destruct (decide (dp_size dist = 0)); [done|].
    destruct (decide (Z.rem gbs (dp_size dist) <> 0)); [|done].
    reflexivity. }
  split; [exact Hrun|]. rewrite Hrun. simpl.
  repeat (apply Forall_cons; split; [done|]). by apply Forall_nil.
Qed.

(** C3: the scratch buffer is allocated with room for [2 * max_layer_size]
    floats, where [max_layer_size] is taken over the embedding table and
    the two linear layers of the model as [Model_pad_vocab] left it, each
    element count times [dp_size]; the allocation is the call right before
    the three sharding calls, and no sharding call precedes it. *)
Theorem scratch_buffer_capacity (h : Oracle float)
    gbs seq_len vocab emb argv st0 tp dp :
  parse_args argv = Parsed (Some tp) (Some dp) ->
  let dist : Dist :=
    h [(st0, Esrand 42); (st0, EMPI_Init)] (EDist_create tp dp 3) in
  dp_size dist <> 0 ->
  (dp_size dist | gbs) ->
  exists pre1 s_p pre2 s_m s1 s2 s3 post out,
    let padded := EModel_pad_vocab (vocab_size_padded vocab (dp_size dist)) in
    let m := st_model s_m in
    run h (main_body gbs seq_len vocab emb argv) st0
      = ((pre1 ++ (s_p, padded) :: pre2)
           ++ (s_m, Emalloc (sizeof_float * 2 * max_layer_size m dist))
           :: (s1, EModel_shard_tp (tp_rank dist) (tp_size dist))
           :: (s2, EModel_shard_fsdp (dp_rank dist) (dp_size dist))
           :: (s3, EModel_shard_pp (pp_rank dist)) :: post, out) /\
    s_m = h pre1 padded /\
    Forall (fun e => is_print e = true) (calls pre2) /\
    Forall (fun e => is_shard_call e = false)
      (calls (pre1 ++ (s_p, padded) :: pre2)) /\
    (0 <= Embedding_numel (wte m) * dp_size dist \/
     0 <= Linear_weight_numel (fc_1 m) * dp_size dist \/
     0 <= Linear_weight_numel (fc_2 m) * dp_size dist ->
     max_layer_size m dist
       = Z.max (Embedding_numel (wte m) * dp_size dist)
           (Z.max (Linear_weight_numel (fc_1 m) * dp_size dist)
                  (Linear_weight_numel (fc_2 m) * dp_size dist))).
Proof.
  intros Hp dist Hd Hdiv.
  assert (Hrem : Z.rem gbs (dp_size dist) = 0) by (by apply Z.rem_divide).
  unfold run, main_body. rewrite Hp. simpl. fold dist.
  destruct (decide (dp_size dist = 0)); [done|].
  destruct (decide (Z.rem gbs (dp_size dist) <> 0)); [done|].
  simpl. fold dist.
  eexists [_; _; _; _; _; _; _; _; _; _; _], _, [_; _], _, _, _, _, _, _.
  split; [reflexivity|].
  split; [reflexivity|].
  split; [repeat (apply Forall_cons; split; [done|]); by apply Forall_nil|].
  split; [repeat (apply Forall_cons; split; [done|]); by apply Forall_nil|].
  unfold max_layer_size. lia.
Qed.

End DriverSpec.

Section LossBroadcast.

Context {float : Type} `{Kernels float}.

Lemma result_Some (W : @World float) r v :
  result W r = Some v ->
  exists p s, w_procs W !! r = Some p /\ p_prog p = Ret (v, s).
Proof.
  unfold result. intros Hr. apply bind_Some in Hr as (p & Hl & Hr).
  destruct (p_prog p) as [[v' s]| | |] eqn:Hprog; try done.
  injection Hr as ->. eauto.
Qed.

Lemma returned_loss (W : @World float) t d p v :
  group_ok W -> p = 0 \/ p = 1 \/ p = 2 ->
  result W (t, d, p) = Some v ->
  exists pR sR, w_procs W !! (t, d, 2) = Some pR /\
                p_prog pR = Ret (v, sR) /\
                computed_loss (p_log pR) = Some v.
Proof.
  intros Hok Hp Hr. apply result_Some in Hr as (proc & s & Hl & Hprog).
  destruct (Hok _ _ _ _ Hl) as [Hroot Hother].
  destruct (decide (p = 2)) as [->|Hne].
  - specialize (Hroot eq_refl). unfold root_ok in Hroot.
    rewrite Hprog in Hroot. eauto.
  - assert (Hp' : p = 0 \/ p = 1) by lia. specialize (Hother Hp').
    unfold other_ok in Hother. by rewrite Hprog in Hother.
Qed.

(** C1 (as amended): in every run of a world in which every rank calls
    [Model_forward_3d], a rank of stage 0, 1 or 2 that has returned holds
    the loss computed by the stage-2 rank of its own pipeline group, which
    has returned it too; hence the ranks of one pipeline group return the
    same value. *)
Theorem forward_returns_stage2_loss tp dp inputs (W : @World float) t d p v :
  rtc step (init_world tp dp inputs) W ->
  p = 0 \/ p = 1 \/ p = 2 ->
  result W (t, d, p) = Some v ->
  (exists pR, w_procs W !! (t, d, 2) = Some pR /\
              computed_loss (p_log pR) = Some v) /\
  result W (t, d, 2) = Some v /\
  (forall p' v', p' = 0 \/ p' = 1 \/ p' = 2 ->
                 result W (t, d, p') = Some v' -> v' = v).
Proof.
  intros Hsteps Hp Hr.
  assert (Hok : group_ok W).
  { eapply group_ok_steps; [exact Hsteps | apply group_ok_init]. }
  destruct (returned_loss _ _ _ _ _ Hok Hp Hr) as (pR & sR & HlR & HretR & Hloss).
  split; [eauto|]. split.
  - unfold result. rewrite HlR. simpl. by rewrite HretR.
  - intros p' v' Hp' Hr'.
    destruct (returned_loss _ _ _ _ _ Hok Hp' Hr')
      as (pR' & sR' & HlR' & HretR' & _).
    rewrite HlR in HlR'. injection HlR' as <-. congruence.
Qed.

(** For every environment, a stage issues exactly one layer-kernel call,
    right after the all-gather of its shard. *)
Lemma layer_kernel_once (h : Oracle float) Xs Ys fb dist st :
  pp_rank dist = 0 \/ pp_rank dist = 1 \/ pp_rank dist = 2 ->
  exists pre s_g shard s_k call post out,
    run h (Model_forward_3d Xs Ys fb dist) st
      = (pre ++ (s_g, EAllgather shard (dp_comm dist))
               :: (s_k, EKernel call) :: post, out) /\
    layer_kernel_of (pp_rank dist) (st_model s_k) call /\
    Forall (fun en => is_layer_kernel (snd en) = false) (pre ++ post).
Proof.
  unfold run, Model_forward_3d.
  intros [Hp|[Hp|Hp]]; rewrite Hp; simpl.
  - eexists [], _, _, _, _, _, _. split; [reflexivity|].
    split; [split; reflexivity|].
    repeat (apply Forall_cons; split; [done|]); by apply Forall_nil.
  - eexists [_], _, _, _, _, _, _. split; [reflexivity|].
    split; [left; split; reflexivity|].
    repeat (apply Forall_cons; split; [done|]); by apply Forall_nil.
  - eexists [_], _, _, _, _, _, _. split; [reflexivity|].
    split; [right; split; reflexivity|].
    repeat (apply Forall_cons; split; [done|]); by apply Forall_nil.
Qed.

(** C5: in every run of the world.  Whenever the all-gather of a
    data-parallel group fires, every member contributes the shard of its
    stage's layer and goes on to call its layer kernel on the gathered
    layer.  Conversely, a rank that is about to call a layer kernel
    (embedding lookup or linear transform) has the all-gather over its
    data-parallel communicator as its latest call, the layer points at the
    scratch buffer, the scratch buffer holds the concatenation of the
    shards the members of its group handed to that all-gather, and the
    effective dimension is the shard's times [dp_size]; the kernel is the
    embedding lookup on stage 0 and the linear transform of [fc_1] or
    [fc_2] on stages 1 and 2.  And for every environment each stage calls
    a layer kernel exactly once, right after the all-gather. *)
Theorem kernel_runs_on_gathered_layer tp dp inputs (W : @World float) :
  rtc step (init_world tp dp inputs) W ->
  (forall W' c t d p,
     fire W (AAllgather c) = Some W' ->
     (t, d, p) ∈ members tp dp c ->
     exists i shards proc s_g shard k proc' s_k call k',
       inputs !! (t, d, p) = Some i /\
       c = DPComm t p /\
       contributions (contrib_allgather c) (members tp dp c) (w_procs W)
         = Some shards /\
       w_procs W !! (t, d, p) = Some proc /\
       p_prog proc = Vis s_g (EAllgather shard c) k /\
       w_procs W' !! (t, d, p) = Some proc' /\
       p_prog proc' = Vis s_k (EKernel call) k' /\
       kernel_on_gathered p (in_flat_buffer i) dp s_g shard (concat shards)
         s_k call) /\
  (forall t d p proc call,
     w_procs W !! (t, d, p) = Some proc ->
     head_call proc = Some (EKernel call) ->
     is_layer_kernel (EKernel call : Ext float) = true ->
     exists i s_g shard shards s_k k',
       inputs !! (t, d, p) = Some i /\
       last (p_log proc) = Some (s_g, EAllgather shard (DPComm t p)) /\
       gathered_from W (DPComm t p) shards /\
       p_prog proc = Vis s_k (EKernel call) k' /\
       kernel_on_gathered p (in_flat_buffer i) dp s_g shard (concat shards)
         s_k call) /\
  (forall (h : Oracle float) Xs Ys fb dist st,
     pp_rank dist = 0 \/ pp_rank dist = 1 \/ pp_rank dist = 2 ->
     exists pre s_g shard s_k call post out,
       run h (Model_forward_3d Xs Ys fb dist) st
         = (pre ++ (s_g, EAllgather shard (dp_comm dist))
                  :: (s_k, EKernel call) :: post, out) /\
       layer_kernel_of (pp_rank dist) (st_model s_k) call /\
       Forall (fun en => is_layer_kernel (snd en) = false) (pre ++ post)).
Proof.
  intros Hsteps.
  destruct (provenance_ok_steps _ _ _ _ Hsteps) as [Hok Hprov].
  destruct (steps_sizes _ _ Hsteps) as [Htp Hdp]. simpl in Htp, Hdp.
  split; [|split].
  - intros W' c t d p Hf Hr.
    rewrite <- Htp, <- Hdp in Hr.
    destruct (allgather_delivers_concat _ _ _ _ Hf Hr)
      as (shards & proc & s_g & shard & k & Hc & Hl & Hprog & Hl').
    rewrite Htp, Hdp in Hc.
    destruct (Hok _ _ Hl) as (i & Hi & Hal & _).
    rewrite Hprog in Hal. simpl in Hal.
    destruct Hal as [(Hg & _) _]. simpl in Hg. destruct Hg as [-> Hg].
    destruct (Hg (concat shards)) as (s_k & call & k' & Hk & Hkg).
    eexists i, shards, proc, s_g, shard, k, _, s_k, call, k'.
    split; [exact Hi|]. split; [reflexivity|]. split; [exact Hc|].
    split; [exact Hl|]. split; [exact Hprog|]. split; [exact Hl'|].
    split; [exact Hk | exact Hkg].
  - intros t d p proc call Hl Hhead Hlayer.
    destruct (Hprov _ _ Hl) as (i & Hi & _ & Hpre & Hg & _ & _).
    unfold head_call in Hhead.
    destruct (p_prog proc) as [| | |st e k] eqn:Hprog; try done.
    injection Hhead as ->.
    assert (Hlast : exists s shard c,
              last (p_log proc) = Some (s, EAllgather shard c)).
    { simpl in Hpre. destruct call; try done. }
    destruct Hlast as (s_g & shard & c & Hlast).
    destruct (Hg _ _ _ Hlast)
      as (shards & s_k & call' & k' & -> & Hgf & Hprog' & Hkg).
    rewrite Hprog' in Hprog. injection Hprog as <- <- _.
    exists i, s_g, shard, shards, s_k, k. done.
  - intros h. apply layer_kernel_once.
Qed.


(** C6: in every run of the world.  Whenever the mean-reduction of a
    tensor-parallel group fires, every member is a stage-2 rank whose
    latest call was the linear transform into the logits slot; it
    contributes the logits slot, the slot is replaced by the element-wise
    mean of the group's contributions, and the rank goes on to softmax on
    the reduced logits and then to the loss against its own labels.
    Conversely, a rank that is about to call softmax is a stage-2 rank
    whose latest call is the mean-reduction of the logits slot over its
    tensor-parallel communicator, and the slot holds the mean of the
    buffers the members of its group handed to that reduction; a rank
    that is about to call the loss kernel is a stage-2 rank whose two
    latest calls are that reduction and softmax on the reduced logits,
    and it calls the loss on the softmax output against its own labels.
    And for every environment stage 2 runs, in this order, the linear
    transform, the mean-reduction over [tp_comm] with [tp_size], softmax,
    the loss and the broadcast of the loss. *)
Theorem logits_mean_then_softmax_then_loss tp dp inputs (W : @World float) :
  rtc step (init_world tp dp inputs) W ->
  (forall W' c t d p,
     fire W (AAllreduce c) = Some W' ->
     (t, d, p) ∈ members tp dp c ->
     exists i datas proc s2 lin s3 logits k proc' s4 k1 s5 k2,
       inputs !! (t, d, p) = Some i /\
       p = 2 /\ c = TPComm d 2 /\
       contributions (contrib_allreduce c) (members tp dp c) (w_procs W)
         = Some datas /\
       w_procs W !! (t, d, p) = Some proc /\
       let m := st_model (in_state i) in
       last (p_log proc)
         = Some (s2, EKernel (KLinear_forward lin (relu_out m) (fc_2_out m))) /\
       st_heap s3
         = store (st_heap s2) (value (fc_2_out m))
             (eval_Linear_forward lin (st_heap s2) (relu_out m) (fc_2_out m)) /\
       p_prog proc = Vis s3 (EAllreduce_mean logits c tp) k /\
       logits = load (st_heap s3) (value (fc_2_out m))
                  (Activation_numel (fc_2_out m)) /\
       w_procs W' !! (t, d, p) = Some proc' /\
       p_prog proc'
         = Vis s4 (EKernel (Ksoftmax (fc_2_out m) (softmax_out m))) k1 /\
       st_heap s4
         = store (st_heap s3) (value (fc_2_out m)) (mean_of datas tp) /\
       k1 tt = Vis s5 (EKernel (Kcross_entropy_loss (softmax_out m) (in_Ys i)))
                 k2 /\
       st_heap s5
         = store (st_heap s4) (value (softmax_out m))
             (eval_softmax (st_heap s4) (fc_2_out m) (softmax_out m))) /\
  (forall t d p proc inp out,
     w_procs W !! (t, d, p) = Some proc ->
     head_call proc = Some (EKernel (Ksoftmax inp out) : Ext float) ->
     exists i s3 logits datas s4 k1,
       inputs !! (t, d, p) = Some i /\
       let m := st_model (in_state i) in
       p = 2 /\
       last (p_log proc)
         = Some (s3, EAllreduce_mean logits (TPComm d 2) tp) /\
       reduced_from W (TPComm d 2) datas /\
       logits = load (st_heap s3) (value (fc_2_out m))
                  (Activation_numel (fc_2_out m)) /\
       p_prog proc = Vis s4 (EKernel (Ksoftmax inp out)) k1 /\
       inp = fc_2_out m /\ out = softmax_out m /\
       st_heap s4
         = store (st_heap s3) (value (fc_2_out m)) (mean_of datas tp)) /\
  (forall t d p proc probs Ys,
     w_procs W !! (t, d, p) = Some proc ->
     head_call proc = Some (EKernel (Kcross_entropy_loss probs Ys) : Ext float) ->
     exists i pre s3 logits datas s4 s5 k2,
       inputs !! (t, d, p) = Some i /\
       let m := st_model (in_state i) in
       p = 2 /\
       p_log proc
         = pre ++ [(s3, EAllreduce_mean logits (TPComm d 2) tp);
                   (s4, EKernel (Ksoftmax (fc_2_out m) (softmax_out m)))] /\
       reduced_from W (TPComm d 2) datas /\
       logits = load (st_heap s3) (value (fc_2_out m))
                  (Activation_numel (fc_2_out m)) /\
       st_heap s4
         = store (st_heap s3) (value (fc_2_out m)) (mean_of datas tp) /\
       p_prog proc = Vis s5 (EKernel (Kcross_entropy_loss probs Ys)) k2 /\
       probs = softmax_out m /\ Ys = in_Ys i /\
       st_heap s5
         = store (st_heap s4) (value (softmax_out m))
             (eval_softmax (st_heap s4) (fc_2_out m) (softmax_out m))) /\
  (forall (h : Oracle float) Xs Ys fb dist st,
     pp_rank dist = 2 ->
     let m := st_model st in
     exists pre s2 lin s3 logits s4 s5 s6 l out,
       run h (Model_forward_3d Xs Ys fb dist) st
         = (pre ++ [(s2, EKernel (KLinear_forward lin (relu_out m)
                                    (fc_2_out m)));
                    (s3, EAllreduce_mean logits (tp_comm dist) (tp_size dist));
                    (s4, EKernel (Ksoftmax (fc_2_out m) (softmax_out m)));
                    (s5, EKernel (Kcross_entropy_loss (softmax_out m) Ys));
                    (s6, EBcast (Some l) 2 (pp_comm dist))], out) /\
       logits = load (st_heap s3) (value (fc_2_out m))
                  (Activation_numel (fc_2_out m)) /\
       st_heap s4
         = store (st_heap s3) (value (fc_2_out m))
             (h (pre ++ [(s2, EKernel (KLinear_forward lin (relu_out m)
                                         (fc_2_out m)))])
                (EAllreduce_mean logits (tp_comm dist) (tp_size dist))) /\
       st_heap s5
         = store (st_heap s4) (value (softmax_out m))
             (eval_softmax (st_heap s4) (fc_2_out m) (softmax_out m)) /\
       l = eval_cross_entropy_loss (st_heap s5) (softmax_out m) Ys).
Proof.
  intros Hsteps.
  destruct (provenance_ok_steps _ _ _ _ Hsteps) as [Hok Hprov].
  destruct (steps_sizes _ _ Hsteps) as [Htp Hdp]. simpl in Htp, Hdp.
  split; [|split; [|split]].
  - intros W' c t d p Hf Hr.
    rewrite <- Htp, <- Hdp in Hr.
    destruct (allreduce_delivers_mean _ _ _ _ Hf Hr)
      as (datas & proc & s3 & logits & size & k & Hc & Hl & Hprog & Hl').
    rewrite Htp, Hdp in Hc.
    destruct (Hok _ _ Hl) as (i & Hi & Hal & Hlin).
    rewrite Hprog in Hal, Hlin. simpl in Hal, Hlin.
    destruct Hal as [(_ & Hred & _) _]. simpl in Hred.
    destruct Hred as (-> & -> & -> & Hlog & Hnext).
    destruct Hlin as (s2 & lin & Hlast & Hheap).
    destruct (Hnext (mean_of datas tp))
      as (s4 & k1 & s5 & k2 & Hk & Hh4 & Hk1 & Hh5).
    eexists i, datas, proc, s2, lin, s3, logits, k, _, s4, k1, s5, k2.
    split; [exact Hi|]. split; [reflexivity|]. split; [reflexivity|].
    split; [exact Hc|]. split; [exact Hl|]. simpl.
    split; [exact Hlast|]. split; [exact Hheap|]. split; [exact Hprog|].
    split; [exact Hlog|]. split; [exact Hl'|]. split; [exact Hk|].
    split; [exact Hh4|]. split; [exact Hk1 | exact Hh5].
  - intros t d p proc inp out Hl Hhead.
    destruct (Hprov _ _ Hl) as (i & Hi & _ & Hpre & _ & Hm & _).
    unfold head_call in Hhead.
    destruct (p_prog proc) as [| | |st e k] eqn:Hprog; try done.
    injection Hhead as ->. simpl in Hpre.
    destruct Hpre as (s3 & logits & c & size & Hlast).
    destruct (Hm _ _ _ _ Hlast)
      as (datas & s4 & k1 & s5 & k2
          & -> & -> & -> & Hred & Hlog & Hprog' & Hh4 & _ & _).
    rewrite Hprog' in Hprog. injection Hprog as <- <- <- _.
    exists i, s3, logits, datas, s4, k. done.
  - intros t d p proc probs Ys Hl Hhead.
    destruct (Hprov _ _ Hl) as (i & Hi & _ & Hpre & _ & _ & Hs).
    unfold head_call in Hhead.
    destruct (p_prog proc) as [| | |st e k] eqn:Hprog; try done.
    injection Hhead as ->. simpl in Hpre.
    destruct Hpre as (s4 & inp & out & Hlast).
    destruct (Hs _ _ _ Hlast)
      as (pre & s3 & logits & datas & s5 & k2
          & -> & Hlog & Hred & Hlogits & -> & -> & Hh4 & Hprog' & Hh5).
    rewrite Hprog' in Hprog. injection Hprog as <- <- <- _.
    exists i, pre, s3, logits, datas, s4, s5, k. done.
  - intros h Xs Ys fb dist st Hp m.
    destruct (proj1 (stage2_trace h Xs Ys fb dist st) Hp)
      as (e_recv & s1 & e_gather & s2 & lin & s3 & logits & s4 & s5 & s6
          & l & out & Hrun & _ & Hlog & Hh4 & Hh5 & Hl).
    exists [(st, e_recv); (s1, e_gather)], s2, lin, s3, logits, s4, s5, s6,
      l, out.
    done.
Qed.

End LossBroadcast.

(** * Concrete runs *)

Section Examples.

Import Demo.

(** In the run of the demo world, the embedding kernel of stage 0 (its
    second call) sees the two shards [1; 2] and [3; 4] side by side in the
    scratch buffer, and the stage-2 ranks see their gathered weights. *)
Example demo_gathered_buffers :
  seen world_end (0, 0, 0) 1 flat_buffer
    = Some ([1; 2; 3; 4] ++ replicate 12 0) /\
  seen world_end (0, 1, 0) 1 flat_buffer
    = Some ([1; 2; 3; 4] ++ replicate 12 0) /\
  seen world_end (0, 0, 2) 2 flat_buffer
    = Some ([1; 2; 3; 4; 5; 6; 7; 8] ++ replicate 8 0).
Proof. vm_compute. done. Qed.

Example demo_mean_of :
  mean_of [[1; 2; 3]; [3; 4; 5]] 2 = [2; 3; 4].
Proof. reflexivity. Qed.

(** With two tensor-parallel ranks the logits [11; 14; 17; 20] and
    [17; 20; 23; 26] are averaged before the loss, and every rank returns
    the same value. *)
Example demo_tp_results :
  (fun r => result (run_world 64 world_tp) r) <$> ranks_tp
    = [Some 14; Some 14; Some 14; Some 14; Some 14; Some 14].
Proof. vm_compute. reflexivity. Qed.

Example demo_results :
  (fun r => result world_end r) <$> ranks
    = [Some 11; Some 44; Some 11; Some 44; Some 11; Some 44].
Proof. vm_compute. reflexivity. Qed.

Lemma forward_returns_stage2_loss_witness :
  rtc step (init_world 1 2 inputs) world_end /\
  result world_end (0, 1, 0) = Some 44 /\
  (exists pR, w_procs world_end !! (0, 1, 2) = Some pR /\
              computed_loss (p_log pR) = Some 44) /\
  result world_end (0, 1, 2) = Some 44.
Proof.
  assert (Hsteps : rtc step (init_world 1 2 inputs) world_end)
    by apply run_world_steps.
  assert (Hres : result world_end (0, 1, 0) = Some 44)
    by (vm_compute; reflexivity).
  split; [exact Hsteps|]. split; [exact Hres|].
  destruct (forward_returns_stage2_loss 1 2 inputs world_end 0 1 0 44
              Hsteps (or_introl eq_refl) Hres) as (Hroot & Hret & _).
  split; [exact Hroot | exact Hret].
Defined.

(** C1 as worded fails with two pipeline groups: the world below runs to
    completion, and the ranks of the two groups return different values. *)
Lemma loss_differs_between_pipeline_groups :
  rtc step world0 world_end /\
  finished world_end = true /\
  result world_end (0, 0, 0) = Some 11 /\
  result world_end (0, 1, 0) = Some 44 /\
  ~ every_rank_same_loss world_end.
Proof.
  split; [apply run_world_steps|].
  split; [vm_compute; reflexivity|].
  split; [vm_compute; reflexivity|].
  split; [vm_compute; reflexivity|].
  intros Hall.
  assert (Heq : 11 = 44).
  { apply (Hall (0, 0, 0) (0, 1, 0)); vm_compute; reflexivity. }
  discriminate.
Qed.

(* The rank [(0, 0, p)] of the demo world after [fuel] steps of the
   scheduler, about to call its layer kernel. *)
Ltac at_layer_kernel fuel p :=
  let W := constr:(run_world fuel world0) in
  let Hsteps := fresh "Hsteps" in
  assert (Hsteps : rtc step (init_world 1 2 inputs) W)
    by apply run_world_steps;
  split; [exact Hsteps|];
  let Hex := fresh "Hex" in
  assert (Hex : exists proc call,
            w_procs W !! (0, 0, p) = Some proc /\
            head_call proc = Some (EKernel call) /\
            is_layer_kernel (EKernel call : Ext Z) = true)
    by (vm_compute; eexists _, _;
        split; [reflexivity|]; split; reflexivity);
  let proc := fresh "proc" in
  let call := fresh "call" in
  let Hl := fresh "Hl" in
  let Hhead := fresh "Hhead" in
  let Hlayer := fresh "Hlayer" in
  destruct Hex as (proc & call & Hl & Hhead & Hlayer);
  let i := fresh "i" in
  let s_g := fresh "s_g" in
  let shard := fresh "shard" in
  let shards := fresh "shards" in
  let s_k := fresh "s_k" in
  let k' := fresh "k'" in
  let Hi := fresh "Hi" in
  let Hlast := fresh "Hlast" in
  let Hgf := fresh "Hgf" in
  let Hprog := fresh "Hprog" in
  let Hcall := fresh "Hcall" in
  let Hptr := fresh "Hptr" in
  let Hholds := fresh "Hholds" in
  destruct (proj1 (proj2 (kernel_runs_on_gathered_layer 1 2 inputs W Hsteps))
              0 0 p proc call Hl Hhead Hlayer)
    as (i & s_g & shard & shards & s_k & k' & Hi & Hlast & Hgf & Hprog
        & _ & Hcall & Hptr & _ & Hholds);
  vm_compute in Hi; injection Hi as <-;
  exists proc, s_g, shard, shards, s_k, call, k';
  split; [exact Hl|]; split; [exact Hlast|]; split; [exact Hgf|];
  split; [exact Hprog|]; split; [exact Hcall|];
  split; [exact Hptr | exact Hholds].

Lemma kernel_runs_on_gathered_layer_witness :
  Forall (fun '(fuel, p) =>
            let W := run_world fuel world0 in
            rtc step (init_world 1 2 inputs) W /\
            exists proc s_g shard shards s_k call k',
              w_procs W !! (0, 0, p) = Some proc /\
              last (p_log proc) = Some (s_g, EAllgather shard (DPComm 0 p)) /\
              gathered_from W (DPComm 0 p) shards /\
              p_prog proc = Vis s_k (EKernel call) k' /\
              layer_kernel_of p (st_model s_k) call /\
              fst (layer_view p (st_model s_k)) = flat_buffer /\
              holds (st_heap s_k) flat_buffer (concat shards))
         [(1%nat, 0); (6%nat, 1); (13%nat, 2)].
Proof.
  apply Forall_cons. split; [cbv zeta; at_layer_kernel 1%nat 0|].
  apply Forall_cons. split; [cbv zeta; at_layer_kernel 6%nat 1|].
  apply Forall_cons. split; [cbv zeta; at_layer_kernel 13%nat 2|].
  by apply Forall_nil.
Defined.

Lemma logits_mean_then_softmax_then_loss_witness :
  let W := run_world 19 world_tp in
  exists proc s3 logits datas s4 k1,
    w_procs W !! (0, 0, 2) = Some proc /\
    last (p_log proc) = Some (s3, EAllreduce_mean logits (TPComm 0 2) 2) /\
    reduced_from W (TPComm 0 2) datas /\
    length datas = 2%nat /\
    p_prog proc
      = Vis s4 (EKernel (Ksoftmax (fc_2_out model_tp) (softmax_out model_tp)))
          k1 /\
    st_heap s4
      = store (st_heap s3) (value (fc_2_out model_tp)) (mean_of datas 2).
Proof.
  intros W.
  assert (Hsteps : rtc step world_tp W) by apply run_world_steps.
  assert (Hex : exists proc inp out,
            w_procs W !! (0, 0, 2) = Some proc /\
            head_call proc = Some (EKernel (Ksoftmax inp out) : Ext Z))
    by (vm_compute; eexists _, _, _; split; reflexivity).
  destruct Hex as (proc & inp & out & Hl & Hhead).
  destruct (proj1 (proj2 (logits_mean_then_softmax_then_loss 2 1 _ W
                             Hsteps))
              0 0 2 proc inp out Hl Hhead)
    as (i & s3 & logits & datas & s4 & k1 & Hi & _ & Hlast & Hred & _
        & Hprog & -> & -> & Hh4).
  vm_compute in Hi. injection Hi as <-.
  exists proc, s3, logits, datas, s4, k1.
  split; [exact Hl|]. split; [exact Hlast|]. split; [exact Hred|].
  split; [|split; [exact Hprog | exact Hh4]].
  destruct (steps_sizes _ _ Hsteps) as [Htp Hdp].
  unfold reduced_from in Hred. rewrite Htp, Hdp in Hred.
  apply Forall2_length in Hred. symmetry. exact Hred.
Defined.

Lemma forward_restores_shard_witness :
  exists tr v st',
    run echo (Model_forward_3d (Xs 0) (Ys 0) flat_buffer
                (topology 1 2 2 (0, 0, 1))) (state 0 1)
      = (tr, Returned (v, st')) /\
    layer_view 1 (st_model st') = (2%N, 1) /\
    Forall (fun en =>
              is_layer_kernel (snd en) = false ->
              layer_view 1 (st_model (fst en)) = (2%N, 1)) tr.
Proof.
  exact (forward_restores_shard echo (Xs 0) (Ys 0) flat_buffer
           (topology 1 2 2 (0, 0, 1)) (state 0 1)
           (or_intror (or_introl eq_refl))).
Defined.

Lemma gather_then_kernel_trace_example :
  exists pre s_g shard s_k call post out,
    run echo (Model_forward_3d (Xs 0) (Ys 0) flat_buffer
                (topology 1 2 0 (0, 0, 0))) (state 0 0)
      = (pre ++ (s_g, EAllgather shard (DPComm 0 0))
               :: (s_k, EKernel call) :: post, out) /\
    fst (layer_view 0 (st_model s_k)) = flat_buffer /\
    snd (layer_view 0 (st_model s_k)) = 2 * 2 /\
    holds (st_heap s_k) flat_buffer (echo pre (EAllgather shard (DPComm 0 0))).
Proof.
  destruct (gather_then_kernel_trace echo (Xs 0) (Ys 0) flat_buffer
              (topology 1 2 0 (0, 0, 0)) (state 0 0) (or_introl eq_refl))
    as (pre & s_g & shard & s_k & call & post & out
        & Hrun & _ & _ & _ & _ & Hptr & Hdim & Hholds).
  exists pre, s_g, shard, s_k, call, post, out.
  split; [exact Hrun|]. split; [exact Hptr|]. split; [exact Hdim|exact Hholds].
Defined.

Lemma stage2_trace_example :
  (exists l, last (calls (fst (run echo
               (Model_forward_3d (Xs 0) (Ys 0) flat_buffer
                  (topology 1 2 4 (0, 0, 2))) (state 0 2))))
             = Some (EBcast (Some l) 2 (PPComm 0 0))) /\
  Forall (fun e => is_loss_kernel e = false)
    (calls (fst (run echo (Model_forward_3d (Xs 0) (Ys 0) flat_buffer
                             (topology 1 2 0 (0, 0, 0))) (state 0 0)))).
Proof.
  split.
  - destruct (proj1 (stage2_trace echo (Xs 0) (Ys 0)
                       flat_buffer (topology 1 2 4 (0, 0, 2)) (state 0 2))
                    eq_refl)
      as (e_recv & s1 & e_gather & s2 & lin & s3 & logits & s4 & s5 & s6
          & l & out & Hrun & _).
    exists l. rewrite Hrun. reflexivity.
  - apply (proj2 (stage2_trace echo (Xs 0) (Ys 0)
                    flat_buffer (topology 1 2 0 (0, 0, 0)) (state 0 0))).
    discriminate.
Defined.



Lemma loss_defined_by_bcast_witness :
  exists pre s st',
    run echo (Model_forward_3d (Xs 0) (Ys 0) flat_buffer
                (topology 1 2 0 (0, 0, 0))) (state 0 0)
      = (pre ++ [(s, EBcast None 2 (PPComm 0 0))], Returned (7, st')).
Proof.
  destruct (loss_defined_by_bcast echo (Xs 0) (Ys 0) flat_buffer
              (topology 1 2 0 (0, 0, 0)) (state 0 0) (or_introl eq_refl))
    as (pre & s & st' & Hrun & _).
  exists pre, s, st'. exact Hrun.
Defined.

Lemma vocab_size_padded_spec_witness :
  1 <= 2 /\ vocab_size_padded 27 2 = 28 /\ (2 | vocab_size_padded 27 2).
Proof.
  split; [lia|].
  destruct (vocab_size_padded_spec 27 2 ltac:(lia)) as (Heq & Hdiv & _).
  split; [exact Heq | exact Hdiv].
Defined.

Lemma parse_args_total_iff_witness : both_flags_with_values argv_ok.
Proof.
  apply (proj1 (parse_args_total_iff (float := Z) argv_ok)).
  exists 1, 2. reflexivity.
Defined.

Lemma batch_check_precedes_data_communication_witness :
  ~ (3 | 32) /\
  run echo (main argv_odd) (state 0 0)
    = ([(state 0 0, Esrand 42); (state 0 0, EMPI_Init);
        (state 0 0, EDist_create 1 3 3);
        (state 0 0, Erank0_printf 0
           "Global batch size must be divisible by world size!\n" []);
        (state 0 0, EMPI_Finalize)], Exited 1).
Proof.
  assert (Hn : ~ (3 | 32)) by (intros [k Hk]; lia).
  split; [exact Hn|].
  apply (batch_check_precedes_data_communication echo 32 16 27 16 argv_odd
           (state 0 0) 1 3 eq_refl ltac:(discriminate) Hn).
Defined.

(** C2 as worded fails: group creation ([Dist_create]) has been issued
    when the divisibility check reports the error. *)
Lemma batch_check_follows_group_creation :
  ~ (3 | 32) /\
  snd (run echo (main argv_odd) (state 0 0)) = Exited 1 /\
  calls (fst (run echo (main argv_odd) (state 0 0)))
    = [Esrand 42; EMPI_Init; EDist_create 1 3 3;
       Erank0_printf 0
         "Global batch size must be divisible by world size!\n" [];
       EMPI_Finalize] /\
  ~ Forall (fun e => is_communication e = false)
      (calls (fst (run echo (main argv_odd) (state 0 0)))).
Proof.
  split; [intros [k Hk]; lia|].
  split; [reflexivity|].
  split; [reflexivity|].
  intros HF.
  pose proof (Forall_lookup_1 _ _ 2%nat (EDist_create 1 3 3) HF eq_refl) as Hc.
  discriminate.
Qed.

Lemma scratch_buffer_capacity_witness :
  (2 | 32) /\
  exists pre s_m post out,
    run echo (main argv_ok) (state 0 0)
      = (pre ++ (s_m, Emalloc (sizeof_float * 2
                                 * max_layer_size (st_model s_m)
                                     (topology 1 2 0 (0, 0, 0))))
             :: (post : Trace Z), out) /\
    Forall (fun e => is_shard_call e = false) (calls pre).
Proof.
  assert (Hdiv : (2 | 32)) by (exists 16; reflexivity).
  split; [exact Hdiv|].
  destruct (scratch_buffer_capacity echo 32 16 27 16 argv_ok (state 0 0) 1 2
              eq_refl ltac:(discriminate) Hdiv)
    as (pre1 & s_p & pre2 & s_m & s1 & s2 & s3 & post & out
        & Hrun & _ & _ & Hpre & _).
  eexists _, s_m, _, out. split; [exact Hrun | exact Hpre].
Defined.

End Examples.

(** * Further properties of the driver *)

(** ** The argument loop *)

Lemma parse_loop_keeps_tp rest i tp dp tp' dp' :
  "--tp" ∉ rest ->
  parse_loop rest i tp dp = Parsed tp' dp' -> tp' = tp.
Proof.
  revert i tp dp. induction rest as [|arg rest IH]; intros i tp dp Hn; simpl.
  - by intros [= <- _].
  - apply not_elem_of_cons in Hn as [Hne Hn].
    destruct (String.eqb_spec arg "--tp") as [->|_]; [done|].
    destruct (String.eqb arg "--dp").
    + destruct rest as [|v rest']; [done|]. by apply IH.
    + by apply IH.
Qed.

Lemma parse_loop_keeps_dp rest i tp dp tp' dp' :
  "--dp" ∉ rest ->
  parse_loop rest i tp dp = Parsed tp' dp' -> dp' = dp.
Proof.
  revert i tp dp. induction rest as [|arg rest IH]; intros i tp dp Hn; simpl.
  - by intros [= _ <-].
  - apply not_elem_of_cons in Hn as [Hne Hn].
    destruct (String.eqb arg "--tp").
    + destruct rest as [|v rest']; [done|]. by apply IH.
    + destruct (String.eqb_spec arg "--dp") as [->|_]; [done|]. by apply IH.
Qed.

Lemma parse_loop_next arg w rest i tp dp :
  exists tp1 dp1,
    parse_loop (arg :: w :: rest) i tp dp
      = parse_loop (w :: rest) (S i) tp1 dp1.
Proof.
  change (parse_loop (arg :: w :: rest) i tp dp)
    with (if String.eqb arg "--tp"
          then parse_loop (w :: rest) (S i) (Some (atoi w)) dp
          else if String.eqb arg "--dp"
               then parse_loop (w :: rest) (S i) tp (Some (atoi w))
               else parse_loop (w :: rest) (S i) tp dp).
  destruct (String.eqb arg "--tp"); [|destruct (String.eqb arg "--dp")];
    eauto.
Qed.

Lemma parse_loop_last_tp pre v post i tp dp tp' dp' :
  "--tp" ∉ v :: post ->
  parse_loop (pre ++ "--tp" :: v :: post) i tp dp = Parsed tp' dp' ->
  tp' = Some (atoi v).
Proof.
  intros Hn. revert i tp dp.
  induction pre as [|arg pre IH]; intros i tp dp.
  - change (parse_loop ([] ++ "--tp" :: v :: post) i tp dp)
      with (parse_loop (v :: post) (S i) (Some (atoi v)) dp).
    intros Hp. by apply parse_loop_keeps_tp in Hp.
  - assert (Hne : exists w rest', pre ++ "--tp" :: v :: post = w :: rest')
      by (destruct pre; simpl; eauto).
    destruct Hne as (w & rest' & Hrest).
    rewrite <- app_comm_cons, Hrest.
    destruct (parse_loop_next arg w rest' i tp dp) as (tp1 & dp1 & ->).
    rewrite <- Hrest. apply IH.
Qed.

Lemma parse_loop_last_dp pre v post i tp dp tp' dp' :
  "--dp" ∉ v :: post ->
  parse_loop (pre ++ "--dp" :: v :: post) i tp dp = Parsed tp' dp' ->
  dp' = Some (atoi v).
Proof.
  intros Hn. revert i tp dp.
  induction pre as [|arg pre IH]; intros i tp dp.
  - change (parse_loop ([] ++ "--dp" :: v :: post) i tp dp)
      with (parse_loop (v :: post) (S i) tp (Some (atoi v))).
    intros Hp. by apply parse_loop_keeps_dp in Hp.
  - assert (Hne : exists w rest', pre ++ "--dp" :: v :: post = w :: rest')
      by (destruct pre; simpl; eauto).
    destruct Hne as (w & rest' & Hrest).
    rewrite <- app_comm_cons, Hrest.
    destruct (parse_loop_next arg w rest' i tp dp) as (tp1 & dp1 & ->).
    rewrite <- Hrest. apply IH.
Qed.

(** X1: when a flag is given several times the last occurrence decides:
    the variable ends up as [atoi] of the argument after the last "--tp"
    (respectively "--dp"). *)
Theorem parse_args_last_occurrence_wins (argv pre post : list string) v tp dp :
  parse_args argv = Parsed tp dp ->
  (argv = pre ++ "--tp" :: v :: post -> "--tp" ∉ v :: post ->
   tp = Some (atoi v)) /\
  (argv = pre ++ "--dp" :: v :: post -> "--dp" ∉ v :: post ->
   dp = Some (atoi v)).
Proof.
  unfold parse_args. intros Hp. split; intros -> Hn.
  - eapply parse_loop_last_tp; eauto.
  - eapply parse_loop_last_dp; eauto.
Qed.

(** ** Numbers on the command line *)

Lemma digit_of_pretty_N_char (y : N) :
  (y < 10)%N -> digit_of (pretty_N_char y) = Some (Z.of_N y).
Proof.
  intros Hy.
  assert (Hc : (y = 0 \/ y = 1 \/ y = 2 \/ y = 3 \/ y = 4 \/ y = 5 \/ y = 6
                \/ y = 7 \/ y = 8 \/ y = 9)%N) by lia.
  repeat (destruct Hc as [->|Hc]; [reflexivity|]). by subst.
Qed.

Lemma atoi_digits_pretty_N_go (x : N) :
  exists k, forall s acc,
    atoi_digits (pretty_N_go x s) acc = atoi_digits s (acc * k + Z.of_N x).
Proof.
  induction (N.lt_wf_0 x) as [x _ IH].
  destruct (decide (x = 0%N)) as [->|Hx].
  - exists 1. intros s acc. rewrite pretty_N_go_0. f_equal. lia.
  - destruct (IH (x `div` 10)%N) as [k Hk]; [apply N.div_lt; lia|].
    exists (10 * k). intros s acc.
    rewrite pretty_N_go_step by lia. rewrite Hk. simpl.
    rewrite digit_of_pretty_N_char by (apply N.mod_lt; lia).
    f_equal.
    pose proof (N.div_mod x 10 ltac:(lia)) as Hdm.
    assert (Z.of_N x = 10 * Z.of_N (x `div` 10) + Z.of_N (x `mod` 10)) by lia.
    lia.
Qed.

Lemma pretty_N_go_head (x : N) s :
  (0 < x)%N ->
  exists y rest, (y < 10)%N /\ pretty_N_go x s = String (pretty_N_char y) rest.
Proof.
  revert s. induction (N.lt_wf_0 x) as [x _ IH]; intros s Hx.
  rewrite pretty_N_go_step by done.
  destruct (decide (x `div` 10 = 0)%N) as [->|Hd].
  - rewrite pretty_N_go_0. exists (x `mod` 10)%N, s.
    split; [apply N.mod_lt; lia | done].
  - apply IH; [apply N.div_lt; lia | by apply N.neq_0_lt_0].
Qed.

Lemma pretty_N_head (n : N) :
  exists y rest, (y < 10)%N /\ pretty n = String (pretty_N_char y) rest.
Proof.
  unfold pretty, pretty_N. case_decide as Hn.
  - exists 0%N, "". split; [lia | done].
  - apply pretty_N_go_head. lia.
Qed.

Lemma digit_start (y : N) rest :
  (y < 10)%N ->
  strtol (String (pretty_N_char y) rest)
    = clamp_long (atoi_digits (String (pretty_N_char y) rest) 0) /\
  String.eqb (String (pretty_N_char y) rest) "--tp" = false /\
  String.eqb (String (pretty_N_char y) rest) "--dp" = false.
Proof.
  intros Hy.
  assert (Hc : (y = 0 \/ y = 1 \/ y = 2 \/ y = 3 \/ y = 4 \/ y = 5 \/ y = 6
                \/ y = 7 \/ y = 8 \/ y = 9)%N) by lia.
  repeat (destruct Hc as [->|Hc]; [done|]). by subst.
Qed.

Lemma atoi_digits_pretty (n : N) : atoi_digits (pretty n) 0 = Z.of_N n.
Proof.
  unfold pretty, pretty_N. case_decide as Hn; [by subst|].
  destruct (atoi_digits_pretty_N_go n) as [k Hk]. rewrite Hk. simpl. lia.
Qed.

Lemma to_int_clamp_long_small (z : Z) :
  -2147483648 <= z < 2147483648 -> to_int (clamp_long z) = z.
Proof.
  intros Hz. unfold to_int, clamp_long.
  rewrite Z.min_r, Z.max_r by lia.
  rewrite Z.mod_small by lia. lia.
Qed.

Lemma to_int_range (z : Z) : -2147483648 <= to_int z < 2147483648.
Proof.
  unfold to_int.
  pose proof (Z.mod_pos_bound (z + 2147483648) 4294967296 ltac:(lia)). lia.
Qed.

Lemma strtol_pretty (n : N) : strtol (pretty n) = clamp_long (Z.of_N n).
Proof.
  destruct (pretty_N_head n) as (y & rest & Hy & Heq).
  pose proof (atoi_digits_pretty n) as Hd. rewrite Heq in Hd |- *.
  by rewrite (proj1 (digit_start y rest Hy)), Hd.
Qed.

(** X2: decimal numerals on the command line are read back exactly as
    long as they fit an [int]: for [n < 2^31], [atoi] of the decimal
    rendering of [n] is [n], with a leading minus sign it is [-n] (also
    for [n = 2^31]), and [prog --tp n --dp m] sets [tp_size = n] and
    [dp_size = m].  What [atoi] returns is always an [int], so a numeral
    from [2^31] on is not read back. *)
Theorem numerals_are_read_back (n m : N) (prog : string) :
  (Z.of_N n < 2147483648 -> atoi (pretty n) = Z.of_N n) /\
  (Z.of_N n <= 2147483648 -> atoi ("-" +:+ pretty n) = - Z.of_N n) /\
  (Z.of_N n < 2147483648 -> Z.of_N m < 2147483648 ->
   prog <> "--tp" -> prog <> "--dp" ->
   parse_args [prog; "--tp"; pretty n; "--dp"; pretty m]
     = Parsed (Some (Z.of_N n)) (Some (Z.of_N m))) /\
  (2147483648 <= Z.of_N n ->
   -2147483648 <= atoi (pretty n) < 2147483648 /\
   atoi (pretty n) <> Z.of_N n).
Proof.
  assert (Hatoi : forall k : N,
            Z.of_N k < 2147483648 -> atoi (pretty k) = Z.of_N k).
  { intros k Hk. unfold atoi. rewrite strtol_pretty.
    apply to_int_clamp_long_small. lia. }
  split; [apply Hatoi|]. split; [|split].
  - intros Hn.
    change (atoi ("-" +:+ pretty n))
      with (to_int (clamp_long (- atoi_digits (pretty n) 0))).
    rewrite atoi_digits_pretty. apply to_int_clamp_long_small. lia.
  - intros Hn Hm Htp Hdp. unfold parse_args.
    destruct (pretty_N_head n) as (y & rest & Hy & Hn').
    destruct (pretty_N_head m) as (y' & rest' & Hy' & Hm').
    destruct (digit_start y rest Hy) as (_ & Hn1 & Hn2).
    destruct (digit_start y' rest' Hy') as (_ & Hm1 & Hm2).
    rewrite <- Hn' in Hn1, Hn2. rewrite <- Hm' in Hm1, Hm2.
    simpl.
    destruct (String.eqb_spec prog "--tp") as [?|_]; [done|].
    destruct (String.eqb_spec prog "--dp") as [?|_]; [done|].
    rewrite Hn1, Hn2, Hm1, Hm2. by rewrite !Hatoi.
  - intros Hn. pose proof (to_int_range (strtol (pretty n))) as Hr.
    unfold atoi. split; [exact Hr | lia].
Qed.

Section DriverMore.

Context {float : Type} `{Kernels float}.

(** X3: arguments written as in the usage line of the file header,
    [--tp=<n> --dp=<m>], are not recognised by the loop: both variables
    stay uninitialised and [main] reads [tp_size] uninitialised right
    after [MPI_Init]. *)
Theorem usage_line_syntax_leaves_sizes_unset (h : Oracle float)
    gbs seq_len vocab emb st0 (prog s t : string) :
  prog <> "--tp" -> prog <> "--dp" ->
  parse_args [prog; "--tp=" +:+ s; "--dp=" +:+ t] = Parsed None None /\
  run h (main_body gbs seq_len vocab emb [prog; "--tp=" +:+ s; "--dp=" +:+ t])
      st0
    = ([(st0, Esrand 42); (st0, EMPI_Init)],
       Undefined (UninitializedRead "tp_size")).
Proof.
  intros Htp Hdp.
  assert (Hp : parse_args [prog; "--tp=" +:+ s; "--dp=" +:+ t]
               = Parsed None None).
  { unfold parse_args. simpl.
    destruct (String.eqb_spec prog "--tp") as [?|_]; [done|].
    destruct (String.eqb_spec prog "--dp") as [?|_]; [done|]. done. }
  split; [exact Hp|]. unfold run, main_body. rewrite Hp. reflexivity.
Qed.

End DriverMore.

(** X4: for a non-negative vocabulary size the padded size is the
    smallest multiple of [dp_size] strictly above it, so the padding adds
    between 1 and [dp_size] rows. *)
Theorem vocab_size_padded_least_above (vocab_size dp_size : Z) :
  0 <= vocab_size -> 1 <= dp_size ->
  least_multiple_above dp_size vocab_size
    (vocab_size_padded vocab_size dp_size) /\
  1 <= vocab_size_padded vocab_size dp_size - vocab_size <= dp_size.
Proof.
  intros Hv Hd. unfold vocab_size_padded, least_multiple_above.
  rewrite Z.rem_mod_nonneg by lia.
  pose proof (Z.div_mod vocab_size dp_size ltac:(lia)) as Hdm.
  pose proof (Z.mod_pos_bound vocab_size dp_size ltac:(lia)) as Hb.
  split; [|lia]. split; [|split; [lia|]].
  - exists (vocab_size / dp_size + 1). lia.
  - intros m' [k ->] Hlt.
    assert (vocab_size / dp_size < k) by nia. nia.
Qed.


(** * Further properties of [Model_forward_3d] *)

Section ForwardMore.

Context {float : Type} `{Kernels float}.

Lemma store_lookup_ne (hp : Heap float) p data a :
  a <> p -> store hp p data !! a = hp !! a.
Proof. intros Hne. unfold store. by rewrite lookup_insert_ne. Qed.

(** X5: on every stage the forward pass hands the model structure back
    exactly as it found it (every pointer and every dimension of every
    layer and activation), and the only buffers whose contents may differ
    afterwards are the scratch buffer and the activation slots of the
    stage; in particular the parameter shards are only read. *)
Theorem forward_changes_only_its_buffers (h : Oracle float)
    Xs Ys fb dist st :
  pp_rank dist = 0 \/ pp_rank dist = 1 \/ pp_rank dist = 2 ->
  exists tr v st',
    run h (Model_forward_3d Xs Ys fb dist) st = (tr, Returned (v, st')) /\
    st_model st' = st_model st /\
    forall a, a ∉ written (st_model st) fb (pp_rank dist) ->
      st_heap st' !! a = st_heap st !! a.
Proof.
  destruct st as [m hp].
  destruct m as [[e_p e_v e_s] [w1 b1 i1 o1] [w2 b2 i2 o2] a1 a2 a3 a4 a5 a6].
  unfold run, Model_forward_3d, written.
  intros [Hp|[Hp|Hp]]; rewrite Hp; simpl;
    (eexists _, _, _; split; [reflexivity|]; split; [reflexivity|]);
    intros a Ha; simpl;
    rewrite ?not_elem_of_cons in Ha;
    rewrite ?store_lookup_ne by tauto; reflexivity.
Qed.

(** X6: whatever the pipeline coordinate and whatever the environment
    answers, the forward pass gathers only over the data-parallel
    communicator, sends only to the next stage and receives only from the
    previous one over the pipeline communicator (stage 0 never receives,
    stage 2 never sends), reduces only over the tensor-parallel
    communicator and only on stage 2, broadcasts only from root 2 over the
    pipeline communicator, prints and finalises only when the coordinate
    is unknown, and calls nothing else besides its kernels. *)
Theorem forward_keeps_to_its_communicators (h : Oracle float)
    Xs Ys fb dist st :
  Forall (forward_call_ok dist)
    (calls (fst (run h (Model_forward_3d Xs Ys fb dist) st))).
Proof.
  unfold run, Model_forward_3d.
  destruct (decide (pp_rank dist = 0)) as [Hp|H0];
    [|destruct (decide (pp_rank dist = 1)) as [Hp|H1];
      [|destruct (decide (pp_rank dist = 2)) as [Hp|H2]]];
    simpl;
    repeat (apply Forall_cons; split;
            [simpl; try rewrite Hp; try done; try lia|]);
    by apply Forall_nil.
Qed.

End ForwardMore.

(** * Every run of [main] *)

Section RunFacts.

Context {float : Type}.

(** In an environment that answers every call, the run is the one [run]
    describes. *)
Lemma run_env_total {A} (h : Oracle float) hist (p : Prog float A) :
  run_env (total h) hist p
    = (fst (run_with h hist p), Ended (snd (run_with h hist p))).
Proof.
  revert hist. induction p as [a|c|w|st e k IH]; intros hist; simpl; try done.
  by rewrite IH.
Qed.

Lemma run_env_Vis {A} (h : Env) hist st e (k : Reply e -> Prog float A) :
  run_env h hist (Vis st e k) =
  match h hist e with
  | Some x =>
      ((st, e) :: fst (run_env h (hist ++ [(st, e)]) (k x)),
       snd (run_env h (hist ++ [(st, e)]) (k x)))
  | None => ([(st, e)], Pending st e)
  end.
Proof. reflexivity. Qed.

(** A property of runs that survives putting one more call in front, and
    that holds of a run stopped in its first call, holds of the run of a
    call node as soon as it holds of the runs of all its continuations. *)
Lemma run_env_Vis_all {A} (P : Trace float * Ending float A -> Prop)
    (h : Env) hist st e (k : Reply e -> Prog float A) :
  (forall r, P r -> P ((st, e) :: fst r, snd r)) ->
  P ([(st, e)], Pending st e) ->
  (forall a hist', P (run_env h hist' (k a))) ->
  P (run_env h hist (Vis st e k)).
Proof.
  intros Hc Hp Hk. rewrite run_env_Vis.
  destruct (h hist e) as [x|]; [apply Hc, Hk | exact Hp].
Qed.

(** The same for a property that also speaks about what came before. *)
Lemma run_env_Vis_hist {A}
    (P : Trace float -> Trace float * Ending float A -> Prop)
    (h : Env) hist st e (k : Reply e -> Prog float A) :
  (forall hist r,
     P (hist ++ [(st, e)]) r -> P hist ((st, e) :: fst r, snd r)) ->
  (forall hist, P hist ([(st, e)], Pending st e)) ->
  (forall a hist', P hist' (run_env h hist' (k a))) ->
  P hist (run_env h hist (Vis st e k)).
Proof.
  intros Hc Hp Hk. rewrite run_env_Vis.
  destruct (h hist e) as [x|]; [apply Hc, Hk | apply Hp].
Qed.

End RunFacts.

Section DriverRuns.

Context {float : Type} `{Kernels float}.

Ltac stage_cases dist :=
  destruct (decide (pp_rank dist = 0)) as [?|?];
    [|destruct (decide (pp_rank dist = 1)) as [?|?];
      [|destruct (decide (pp_rank dist = 2)) as [?|?]]].

(* Bring the program that is being run to its first call. *)
Ltac whnf_prog :=
  match goal with
  | |- context [run_env ?h ?hist ?p] =>
      let p' := eval hnf in p in change p with p'
  end.

(* One call further, for every answer, up to [MPI_Finalize]. *)
Ltac run_step Hcons Hpend :=
  whnf_prog;
  match goal with
  | |- ?P (run_env _ _ (Vis _ EMPI_Finalize _)) => fail 1
  | |- ?P (run_env _ _ (Vis _ _ _)) =>
      apply run_env_Vis_all;
      [let r := fresh "r" in let Hr := fresh "Hr" in
       intros r Hr; apply Hcons; [reflexivity | exact Hr]
      | apply Hpend; reflexivity
      | intros ? ?]
  end.

(** X7: every way [main] can end, whether or not its calls return.  When
    it returns (with 0) or exits (with 1, from the batch-size check or
    from the forward pass), the random numbers were seeded and MPI
    initialised by its first two calls, [MPI_Finalize] was its last call,
    and MPI was neither initialised nor finalised in between.  When it
    runs into undefined behaviour, this is the argument handling
    ([argv[argc]] handed to [atoi] before any call, or a size read
    uninitialised right after [MPI_Init]) or the divisibility check
    dividing by a [dp_size] of zero.  Otherwise the run has stopped inside
    a call that did not return, which is then the last call of the
    trace. *)
Theorem main_brackets_mpi (h : Env)
    gbs seq_len vocab emb argv st0 :
  let r := run_env h [] (main_body gbs seq_len vocab emb argv st0) in
  match snd r with
  | Ended (Returned (v, _)) => v = 0 /\ mpi_bracketed (calls (fst r))
  | Ended (Exited c) => c = 1 /\ mpi_bracketed (calls (fst r))
  | Ended (Undefined why) =>
      (why = ReadPastArgv (length argv) /\ calls (fst r) = []) \/
      ((why = UninitializedRead "tp_size" \/
        why = UninitializedRead "dp_size") /\
       calls (fst r) = [Esrand 42; EMPI_Init]) \/
      (why = DivisionByZero /\
       exists tp dp,
         calls (fst r) = [Esrand 42; EMPI_Init; EDist_create tp dp 3])
  | Pending st e => last (fst r) = Some (st, e)
  end.
Proof.
  unfold main_body.
  pose proof (parse_loop_spec argv 0 None None) as Hspec.
  unfold parse_args.
  destruct (parse_loop argv 0 None None) as [tp dp|j]; cycle 1.
  { destruct Hspec as [-> _]. left. done. }
  clear Hspec. cbv zeta.
  whnf_prog. rewrite run_env_Vis.
  destruct (h [] (Esrand 42)) as [[]|]; [|done].
  whnf_prog. rewrite run_env_Vis.
  destruct (h _ EMPI_Init) as [[]|]; [|done].
  whnf_prog.
  destruct tp as [tp|]; [|right; left; split; [by left|done]].
  whnf_prog.
  destruct dp as [dp|]; [|right; left; split; [by right|done]].
  whnf_prog. rewrite run_env_Vis.
  destruct (h _ (EDist_create tp dp 3)) as [dist|]; [|done].
  whnf_prog. simpl fst. simpl snd.
  destruct (decide (dp_size dist = 0)).
  { right. right. split; [done|]. by eexists _, _. }
  set (P := fun r : Trace float * Ending float (Z * State float) =>
    match snd r with
    | Ended (Returned (v, _)) =>
        v = 0 /\ exists mid, calls (fst r) = mid ++ [EMPI_Finalize] /\
                   Forall (fun e => is_init_or_finalize e = false) mid
    | Ended (Exited c) =>
        c = 1 /\ exists mid, calls (fst r) = mid ++ [EMPI_Finalize] /\
                   Forall (fun e => is_init_or_finalize e = false) mid
    | Ended (Undefined why) => False
    | Pending st e => last (fst r) = Some (st, e)
    end).
  assert (Hcons : forall x r, is_init_or_finalize (snd x) = false ->
            P r -> P (x :: fst r, snd r)).
  { intros x [tr o] Hx. unfold P. simpl.
    destruct o as [[[v s]|c|w]|s e].
    - intros [-> (mid & -> & Hm)]. split; [done|].
      exists (snd x :: mid). split; [done|]. by constructor.
    - intros [-> (mid & -> & Hm)]. split; [done|].
      exists (snd x :: mid). split; [done|]. by constructor.
    - done.
    - intros Hl. by rewrite last_cons, Hl. }
  assert (Hpend : forall s e, P ([(s, e)], Pending s e)) by done.
  assert (Hret : forall s a, P ([(s, EMPI_Finalize)], Ended (Returned (0, a)))).
  { intros s a. split; [done|]. by exists []. }
  assert (Hexit : forall s, P ([(s, EMPI_Finalize)], Ended (Exited 1))).
  { intros s. split; [done|]. by exists []. }
  match goal with
  | |- context [run_env h ?hist ?p] =>
      enough (Hp : P (run_env h hist p));
      [ revert Hp; generalize (run_env h hist p); intros [tr o]; unfold P;
        simpl; destruct o as [[[v s]|c|w]|s e];
        [ intros [-> (mid & Hmid & Hm)]; split; [done|];
          exists (EDist_create tp dp 3 :: mid); rewrite Hmid;
          split; [done|]; by constructor
        | intros [-> (mid & Hmid & Hm)]; split; [done|];
          exists (EDist_create tp dp 3 :: mid); rewrite Hmid;
          split; [done|]; by constructor
        | done
        | intros Hl; by rewrite !last_cons, Hl ]
      | generalize hist; intros hist0 ]
  end.
  clearbody P.
  unfold Model_forward_3d.
  destruct (decide (Z.rem gbs (dp_size dist) <> 0)); [|stage_cases dist];
    repeat run_step Hcons Hpend;
    whnf_prog; rewrite run_env_Vis;
    (match goal with
     | |- context [h ?hi EMPI_Finalize] =>
         destruct (h hi EMPI_Finalize) as [[]|]; [|apply Hpend]
     end);
    whnf_prog; first [apply Hret | apply Hexit].
Qed.

(* One call further, for every answer, up to the broadcast. *)
Ltac run_step_hist Hcons Hpend :=
  whnf_prog;
  match goal with
  | |- ?P (run_env _ _ (Vis _ (EBcast _ _ _) _)) => fail 1
  | |- ?P ?hist (run_env _ _ (Vis _ _ _)) =>
      apply (run_env_Vis_hist P);
      [intros ? ?; apply Hcons | intros ?; apply Hpend | intros ? ?]
  end.

(** X8: whenever [main] returns, in an environment that may leave calls
    unanswered, it returns 0 and its last four calls are the broadcast of
    the forward pass (root 2, pipeline communicator), the mean over the
    data-parallel communicator of the one value the broadcast delivered,
    the report of the first element of what that reduction delivered as
    the loss of step 0, and [MPI_Finalize]. *)
Theorem main_reports_group_mean (h : Env)
    gbs seq_len vocab emb argv st0 v s :
  let r := run_env h [] (main_body gbs seq_len vocab emb argv st0) in
  snd r = Ended (Returned (v, s)) ->
  v = 0 /\
  exists tp dp dist pre s_b buf x reduced,
    let bcast := EBcast buf 2 (pp_comm dist) in
    let reduce := EAllreduce_mean [x] (dp_comm dist) (dp_size dist) in
    parse_args argv = Parsed (Some tp) (Some dp) /\
    h [(st0, Esrand 42); (st0, EMPI_Init)] (EDist_create tp dp 3)
      = Some dist /\
    h pre bcast = Some x /\
    h (pre ++ [(s_b, bcast)]) reduce = Some reduced /\
    fst r = pre ++ [(s_b, bcast); (s, reduce);
                    (s, Erank0_printf (world_rank dist) "step: %d, loss %f\n"
                          [PInt 0; PFloat (default x (head reduced))]);
                    (s, EMPI_Finalize)].
Proof.
  intros r. subst r. unfold main_body, parse_args.
  destruct (parse_loop argv 0 None None) as [tp dp|j] eqn:Hparse; [|done].
  cbv zeta.
  whnf_prog. rewrite run_env_Vis.
  destruct (h [] (Esrand 42)) as [[]|]; [|done].
  whnf_prog. rewrite run_env_Vis.
  destruct (h _ EMPI_Init) as [[]|]; [|done].
  whnf_prog.
  destruct tp as [tp|]; [|done].
  whnf_prog.
  destruct dp as [dp|]; [|done].
  whnf_prog. rewrite run_env_Vis.
  destruct (h _ (EDist_create tp dp 3)) as [dist|] eqn:Hdist; [|done].
  whnf_prog. simpl fst. simpl snd. simpl app in *.
  set (Q := fun (hist : Trace float)
                (r : Trace float * Ending float (Z * State float)) =>
    snd r = Ended (Returned (v, s)) ->
    v = 0 /\
    exists pre s_b buf x reduced,
      let bcast := EBcast buf 2 (pp_comm dist) in
      let reduce := EAllreduce_mean [x] (dp_comm dist) (dp_size dist) in
      h (hist ++ pre) bcast = Some x /\
      h ((hist ++ pre) ++ [(s_b, bcast)]) reduce = Some reduced /\
      fst r = pre ++ [(s_b, bcast); (s, reduce);
                      (s, Erank0_printf (world_rank dist) "step: %d, loss %f\n"
                            [PInt 0; PFloat (default x (head reduced))]);
                      (s, EMPI_Finalize)]).
  assert (Hcons : forall hist x r,
            Q (hist ++ [x]) r -> Q hist (x :: fst r, snd r)).
  { intros hist x [tr o] HQ Ho. simpl in Ho.
    destruct (HQ Ho) as (-> & pre & s_b & buf & y & reduced & H1 & H2 & H3).
    split; [done|]. exists (x :: pre), s_b, buf, y, reduced. simpl in *.
    rewrite <- !(app_assoc hist [x]) in H1, H2. by rewrite H3. }
  assert (Hpend : forall hist st e, Q hist ([(st, e)], Pending st e)) by done.
  assert (Hexit : forall hist c, Q hist (run_env h hist (Exit c))) by done.
  assert (Hundef : forall hist w, Q hist (run_env h hist (Undef w))) by done.
  assert (Hend : forall hist (s_b : State float) buf (s_r : State float),
    Q hist (run_env h hist
      (Vis s_b (EBcast buf 2 (pp_comm dist)) (fun x =>
       Vis s_r (EAllreduce_mean [x] (dp_comm dist) (dp_size dist)) (fun red =>
       Vis s_r (Erank0_printf (world_rank dist) "step: %d, loss %f\n"
                  [PInt 0; PFloat (default x (head red))]) (fun _ =>
       Vis s_r EMPI_Finalize (fun _ => Ret (0, s_r)))))))).
  { intros hist s_b buf s_r. unfold Q.
    rewrite run_env_Vis.
    destruct (h hist (EBcast buf 2 (pp_comm dist))) as [x|] eqn:Hx; [|done].
    rewrite run_env_Vis.
    destruct (h (hist ++ [(s_b, EBcast buf 2 (pp_comm dist))])
                (EAllreduce_mean [x] (dp_comm dist) (dp_size dist)))
      as [red|] eqn:Hred; [|done].
    rewrite run_env_Vis.
    match goal with
    | |- context [h ?hi (Erank0_printf ?a ?b ?c)] =>
        destruct (h hi (Erank0_printf a b c)) as [[]|]; [|done]
    end.
    rewrite run_env_Vis.
    match goal with
    | |- context [h ?hi EMPI_Finalize] =>
        destruct (h hi EMPI_Finalize) as [[]|]; [|done]
    end.
    simpl. intros [= <- <-]. split; [done|].
    exists [], s_b, buf, x, red. simpl. rewrite !app_nil_r. done. }
  match goal with
  | |- context [run_env h ?hist ?p] =>
      enough (HQ : Q hist (run_env h hist p));
      [ intros Ho;
        destruct (Hcons [(st0, Esrand 42); (st0, EMPI_Init)] _ _ HQ)
          as (-> & pre & s_b & buf & y & reduced & H1 & H2 & H3);
          [exact Ho|];
        split; [done|];
        exists tp, dp, dist, ((st0, Esrand 42) :: (st0, EMPI_Init) :: pre),
          s_b, buf, y, reduced;
        simpl in *; rewrite H3; done
      | generalize hist; intros hist0 ]
  end.
  clearbody Q.
  unfold Model_forward_3d.
  destruct (decide (dp_size dist = 0)); [apply Hundef|].
  destruct (decide (Z.rem gbs (dp_size dist) <> 0)); [|stage_cases dist];
    repeat run_step_hist Hcons Hpend;
    whnf_prog; first [apply Hend | apply Hexit | apply Hundef].
Qed.
End DriverRuns.

(** * The further properties on the demo inputs *)

Section FurtherExamples.

Import Demo.

Lemma parse_args_last_occurrence_wins_witness :
  parse_args ["a.out"; "--tp"; "2"; "--tp"; "4"; "--dp"; "3"]
    = Parsed (Some 4) (Some 3) /\
  ("--tp" ∉ ["4"; "--dp"; "3"]) /\
  Some 4 = Some (atoi "4").
Proof.
  assert (Hn : "--tp" ∉ ["4"; "--dp"; "3"]).
  { intros Hin. repeat (apply elem_of_cons in Hin as [?|Hin]; [discriminate|]).
    by apply elem_of_nil in Hin. }
  split; [reflexivity|]. split; [exact Hn|].
  exact (proj1 (parse_args_last_occurrence_wins
                  ["a.out"; "--tp"; "2"; "--tp"; "4"; "--dp"; "3"]
                  ["a.out"; "--tp"; "2"] ["--dp"; "3"] "4" (Some 4) (Some 3)
                  eq_refl) eq_refl Hn).
Defined.

Lemma numerals_are_read_back_witness :
  Z.of_N 4 < 2147483648 /\ Z.of_N 12 < 2147483648 /\
  2147483648 <= Z.of_N 2147483648 /\
  "a.out" <> "--tp" /\ "a.out" <> "--dp" /\
  atoi "4" = 4 /\ atoi "-4" = -4 /\
  parse_args ["a.out"; "--tp"; "4"; "--dp"; "12"]
    = Parsed (Some 4) (Some 12) /\
  atoi "2147483648" <> 2147483648.
Proof.
  assert (H4 : Z.of_N 4 < 2147483648) by (simpl; lia).
  assert (H12 : Z.of_N 12 < 2147483648) by (simpl; lia).
  assert (Hbig : 2147483648 <= Z.of_N 2147483648) by (simpl; lia).
  assert (Htp : "a.out" <> "--tp") by discriminate.
  assert (Hdp : "a.out" <> "--dp") by discriminate.
  destruct (numerals_are_read_back 4 12 "a.out") as (Hpos & Hneg & Hargs & _).
  destruct (numerals_are_read_back 2147483648 0 "a.out")
    as (_ & _ & _ & Hwrap).
  split; [exact H4|]. split; [exact H12|]. split; [exact Hbig|].
  split; [exact Htp|]. split; [exact Hdp|].
  split; [exact (Hpos H4)|].
  split; [exact (Hneg ltac:(simpl; lia))|].
  split; [exact (Hargs H4 H12 Htp Hdp)|].
  exact (proj2 (Hwrap Hbig)).
Defined.

Lemma usage_line_syntax_leaves_sizes_unset_witness :
  "a.out" <> "--tp" /\ "a.out" <> "--dp" /\
  run echo (main ["a.out"; "--tp=1"; "--dp=2"]) (state 0 0)
    = ([(state 0 0, Esrand 42); (state 0 0, EMPI_Init)],
       Undefined (UninitializedRead "tp_size")).
Proof.
  assert (Htp : "a.out" <> "--tp") by discriminate.
  assert (Hdp : "a.out" <> "--dp") by discriminate.
  split; [exact Htp|]. split; [exact Hdp|].
  exact (proj2 (usage_line_syntax_leaves_sizes_unset echo 32 16 27 16
                  (state 0 0) "a.out" "1" "2" Htp Hdp)).
Defined.

Lemma vocab_size_padded_least_above_witness :
  0 <= 27 /\ 1 <= 4 /\
  least_multiple_above 4 27 28 /\ 1 <= 28 - 27 <= 4.
Proof.
  assert (Hv : 0 <= 27) by lia.
  assert (Hd : 1 <= 4) by lia.
  split; [exact Hv|]. split; [exact Hd|].
  exact (vocab_size_padded_least_above 27 4 Hv Hd).
Defined.

Lemma forward_changes_only_its_buffers_witness :
  (1%N ∉ written model flat_buffer 0) /\
  exists tr v st',
    run echo (Model_forward_3d (Xs 0) (Ys 0) flat_buffer
                (topology 1 2 0 (0, 0, 0))) (state 0 0)
      = (tr, Returned (v, st')) /\
    st_model st' = model /\
    st_heap st' !! 1%N = Some [1; 2].
Proof.
  assert (Hn : 1%N ∉ written model flat_buffer 0).
  { intros Hin. repeat (apply elem_of_cons in Hin as [?|Hin]; [discriminate|]).
    by apply elem_of_nil in Hin. }
  split; [exact Hn|].
  destruct (forward_changes_only_its_buffers echo (Xs 0) (Ys 0) flat_buffer
              (topology 1 2 0 (0, 0, 0)) (state 0 0) (or_introl eq_refl))
    as (tr & v & st' & Hrun & Hm & Hh).
  exists tr, v, st'. split; [exact Hrun|]. split; [exact Hm|].
  exact (Hh 1%N Hn).
Defined.

Lemma main_reports_group_mean_witness :
  exists s pre s_b buf x,
    run_env (total echo) [] (main argv_ok (state 0 0))
      = (pre ++ [(s_b, EBcast buf 2 (PPComm 0 0));
                 (s, EAllreduce_mean [x] (DPComm 0 0) 2);
                 (s, Erank0_printf 0 "step: %d, loss %f\n"
                       [PInt 0; PFloat x]);
                 (s, EMPI_Finalize)],
         Ended (Returned (0, s))).
Proof.
  assert (Hret : exists s,
            snd (run_env (total echo) [] (main argv_ok (state 0 0)))
              = Ended (Returned (0, s)))
    by (vm_compute; eexists; reflexivity).
  destruct Hret as [s Hret].
  destruct (main_reports_group_mean (total echo) 32 16 27 16 argv_ok
              (state 0 0) 0 s Hret)
    as (_ & tp & dp & dist & pre & s_b & buf & x & reduced
        & Hparse & Hdist & Hx & Hred & Hfst).
  vm_compute in Hparse. injection Hparse as <- <-.
  injection Hdist as <-. injection Hx as <-. injection Hred as <-.
  exists s, pre, s_b, buf, (default 7 buf).
  apply injective_projections; [exact Hfst | exact Hret].
Defined.

End FurtherExamples.
